(** * Verification of go-notion-tools: the property-value extractor
    ([internal/notion/notion.go]), the API client's status handling, and
    the two command variants of [main.go] (the basic query pipeline and
    the person upsert flow). *)

From Stdlib Require Import ZArith Ascii String.
From stdpp Require Import base list gmap strings pretty.

Local Open Scope Z_scope.

(** ** Strings as Go has them *)

(** A Go string is a byte sequence; we model it as [string], a list of
    8-bit [ascii] characters, so the UTF-8 encoding of a non-ASCII rune
    (the arrow "→" below) is its byte sequence. *)

(** The UTF-8 bytes E2 86 92 of U+2192 "→". *)
Definition arrow : string :=
  String (Ascii.ascii_of_nat 226)
    (String (Ascii.ascii_of_nat 134) (String (Ascii.ascii_of_nat 146) EmptyString)).

(** The separator [" → "] used for date ranges. *)
Definition date_sep : string := " " +:+ arrow +:+ " ".

(** *** UTF-8 decoding, as in Go's [unicode/utf8] *)

(** The value of a byte. *)
Definition byte_val (c : Ascii.ascii) : Z := Z.of_nat (Ascii.nat_of_ascii c).

Definition RuneError : Z := 0xFFFD.
Definition RuneSelf : Z := 0x80.
Definition UTFMax : Z := 4.
Definition MaxLatin1 : Z := 0xFF.

Definition maskx : Z := 0x3F.
Definition mask2 : Z := 0x1F.
Definition mask3 : Z := 0x0F.
Definition mask4 : Z := 0x07.
Definition locb : Z := 0x80.
Definition hicb : Z := 0xBF.

(** The entries [xx] (invalid) and [as] (ASCII) of the [first] table. *)
Definition xx : Z := 0xF1.
Definition as_ : Z := 0xF0.

(** utf8's [first] table, by ranges of the lead byte: the low nibble is
    the sequence length, the high nibble the index of the accept range of
    the second byte. *)
Definition first (b : Z) : Z :=
  if b <? 0x80 then as_
  else if b <? 0xC2 then xx
  else if b <? 0xE0 then 0x02
  else if b =? 0xE0 then 0x13
  else if b <? 0xED then 0x03
  else if b =? 0xED then 0x23
  else if b <? 0xF0 then 0x03
  else if b =? 0xF0 then 0x34
  else if b <? 0xF4 then 0x04
  else if b =? 0xF4 then 0x44
  else xx.

Record acceptRange := mkAcceptRange { lo : Z; hi : Z }.

(** utf8's [acceptRanges] (entries 0 to 4; the rest of the array is zero). *)
Definition acceptRanges (i : Z) : acceptRange :=
  match i with
  | 0 => mkAcceptRange locb hicb
  | 1 => mkAcceptRange 0xA0 hicb
  | 2 => mkAcceptRange locb 0x9F
  | 3 => mkAcceptRange 0x90 hicb
  | 4 => mkAcceptRange locb 0x8F
  | _ => mkAcceptRange 0 0
  end.

(** [utf8.DecodeRuneInString]: the first rune and its width; an invalid
    or truncated sequence gives [(RuneError, 1)], the empty string
    [(RuneError, 0)]. The [mask] trick of the ASCII/invalid branch is
    [rune(x) << 31 >> 31]: all ones when bit 0 of [x] is set. *)
Definition DecodeRuneInString (s : string) : Z * nat :=
  match s with
  | EmptyString => (RuneError, 0%nat)
  | String c0 r0 =>
    let s0 := byte_val c0 in
    let x := first s0 in
    if as_ <=? x then
      let mask := if Z.testbit x 0 then -1 else 0 in
      (Z.lor (Z.land s0 (Z.lnot mask)) (Z.land RuneError mask), 1%nat)
    else
      let sz := Z.land x 7 in
      let accept := acceptRanges (Z.shiftr x 4) in
      if Z.of_nat (String.length s) <? sz then (RuneError, 1%nat) else
      match r0 with
      | EmptyString => (RuneError, 1%nat)
      | String c1 r1 =>
        let b1 := byte_val c1 in
        if (b1 <? lo accept) || (hi accept <? b1) then (RuneError, 1%nat)
        else if sz <=? 2 then
          (Z.lor (Z.shiftl (Z.land s0 mask2) 6) (Z.land b1 maskx), 2%nat)
        else
        match r1 with
        | EmptyString => (RuneError, 1%nat)
        | String c2 r2 =>
          let b2 := byte_val c2 in
          if (b2 <? locb) || (hicb <? b2) then (RuneError, 1%nat)
          else if sz <=? 3 then
            (Z.lor (Z.lor (Z.shiftl (Z.land s0 mask3) 12) (Z.shiftl (Z.land b1 maskx) 6))
                   (Z.land b2 maskx), 3%nat)
          else
          match r2 with
          | EmptyString => (RuneError, 1%nat)
          | String c3 _ =>
            let b3 := byte_val c3 in
            if (b3 <? locb) || (hicb <? b3) then (RuneError, 1%nat)
            else
              (Z.lor (Z.lor (Z.lor (Z.shiftl (Z.land s0 mask4) 18)
                                   (Z.shiftl (Z.land b1 maskx) 12))
                            (Z.shiftl (Z.land b2 maskx) 6))
                     (Z.land b3 maskx), 4%nat)
          end
        end
      end
  end.

(** [s[i]] (in range where it is used) and [s[i:j]]. *)
Definition byte_at (s : string) (i : Z) : Z :=
  match String.get (Z.to_nat i) s with Some c => byte_val c | None => 0 end.

Definition slice (s : string) (i j : Z) : string :=
  String.substring (Z.to_nat i) (Z.to_nat (j - i)) s.

(** [utf8.RuneStart]: the byte is not a continuation byte [10xxxxxx]. *)
Definition RuneStart (b : Z) : bool := negb (Z.land b 0xC0 =? 0x80).

(** The loop [for start--; start >= lim; start-- { if RuneStart(s[start]) { break } }]
    of [DecodeLastRuneInString]; it runs at most three times, so the fuel
    4 is never exhausted. *)
Fixpoint scan_start (fuel : nat) (s : string) (start lim : Z) : Z :=
  match fuel with
  | O => start
  | S k =>
      if lim <=? start then
        if RuneStart (byte_at s start) then start
        else scan_start k s (start - 1) lim
      else start
  end.

(** [utf8.DecodeLastRuneInString]: the last rune and its width. *)
Definition DecodeLastRuneInString (s : string) : Z * nat :=
  let end_ := Z.of_nat (String.length s) in
  if end_ =? 0 then (RuneError, 0%nat) else
  let start := end_ - 1 in
  let r := byte_at s start in
  if r <? RuneSelf then (r, 1%nat) else
  let lim := Z.max (end_ - UTFMax) 0 in
  let start := scan_start 4 s (start - 1) lim in
  let start := Z.max start 0 in
  let '(r, size) := DecodeRuneInString (slice s start end_) in
  if negb (start + Z.of_nat size =? end_) then (RuneError, 1%nat) else (r, size).

(** *** [unicode.IsSpace] *)

Record Range16 := mkRange16 { r16_Lo : Z; r16_Hi : Z; r16_Stride : Z }.

(** The [R16] ranges of [unicode.White_Space] (it has no [R32] ranges),
    and its [LatinOffset]. *)
Definition White_Space_R16 : list Range16 :=
  [mkRange16 0x0009 0x000d 1; mkRange16 0x0020 0x0085 101;
   mkRange16 0x00a0 0x1680 5600; mkRange16 0x2000 0x200a 1;
   mkRange16 0x2028 0x2029 1; mkRange16 0x202f 0x205f 48;
   mkRange16 0x3000 0x3000 1].
Definition White_Space_LatinOffset : nat := 2.

(** [unicode.is16], in its linear-search form (the table is shorter than
    [linearMax]). *)
Fixpoint is16 (ranges : list Range16) (r : Z) : bool :=
  match ranges with
  | [] => false
  | rg :: rs =>
      if r <? r16_Lo rg then false
      else if r <=? r16_Hi rg then
        (r16_Stride rg =? 1) || ((r - r16_Lo rg) mod r16_Stride rg =? 0)
      else is16 rs r
  end.

(** [unicode.isExcludingLatin] on [White_Space] (the [uint32] comparison
    rejects negative runes). *)
Definition isExcludingLatin_White_Space (r : Z) : bool :=
  if (White_Space_LatinOffset <? length White_Space_R16)%nat && (0 <=? r) && (r <=? 0x3000)
  then is16 (skipn White_Space_LatinOffset White_Space_R16) r
  else false.

(** [unicode.IsSpace]. *)
Definition IsSpace (r : Z) : bool :=
  if (0 <=? r) && (r <=? MaxLatin1) then
    existsb (Z.eqb r) [0x09; 0x0A; 0x0B; 0x0C; 0x0D; 0x20; 0x85; 0xA0]
  else isExcludingLatin_White_Space r.

(** *** [strings.TrimFunc] and [strings.TrimSpace] *)

(** [strings.TrimLeftFunc(s, f)] is [s[indexFunc(s, f, false):]], or [""]
    when every rune satisfies [f]. The [for i, r := range s] loop of
    [indexFunc] is walked on the remaining suffix [s[i:]], which is what
    [TrimLeftFunc] returns; the fuel [len(s)] bounds the number of runes. *)
Fixpoint TrimLeft_go (fuel : nat) (f : Z -> bool) (s : string) : string :=
  match fuel with
  | O => s
  | S k =>
      match s with
      | EmptyString => EmptyString
      | String _ _ =>
          let '(r, w) := DecodeRuneInString s in
          if f r then TrimLeft_go k f (String.substring w (String.length s - w) s)
          else s
      end
  end.

Definition TrimLeftFunc (s : string) (f : Z -> bool) : string :=
  TrimLeft_go (String.length s) f s.

(** [strings.lastIndexFunc]: the loop [for i := len(s); i > 0;] decodes
    the last rune of [s[0:i]]; [p] is that prefix. *)
Fixpoint lastIndexFunc_go (fuel : nat) (f : Z -> bool) (truth : bool) (p : string) : Z :=
  match fuel with
  | O => -1
  | S k =>
      match p with
      | EmptyString => -1
      | String _ _ =>
          let '(r, size) := DecodeLastRuneInString p in
          let i := (String.length p - size)%nat in
          if Bool.eqb (f r) truth then Z.of_nat i
          else lastIndexFunc_go k f truth (String.substring 0 i p)
      end
  end.

Definition lastIndexFunc (s : string) (f : Z -> bool) (truth : bool) : Z :=
  lastIndexFunc_go (String.length s) f truth s.

(** [strings.TrimRightFunc]. *)
Definition TrimRightFunc (s : string) (f : Z -> bool) : string :=
  let i := lastIndexFunc s f false in
  let i := if (0 <=? i) && (RuneSelf <=? byte_at s i)
           then i + Z.of_nat (snd (DecodeRuneInString (slice s i (Z.of_nat (String.length s)))))
           else i + 1 in
  String.substring 0 (Z.to_nat i) s.

(** [strings.TrimFunc]. *)
Definition TrimFunc (s : string) (f : Z -> bool) : string :=
  TrimRightFunc (TrimLeftFunc s f) f.

(** The [asciiSpace] table of package strings. *)
Definition asciiSpace (c : Z) : bool :=
  existsb (Z.eqb c) [0x09; 0x0A; 0x0B; 0x0C; 0x0D; 0x20].

(** The first loop of [strings.TrimSpace], over [start]: [inl] when it
    falls back to [TrimFunc(s[start:], unicode.IsSpace)] at a non-ASCII
    byte, otherwise [inr s[start:]]. *)
Fixpoint TrimSpace_start (s : string) : string + string :=
  match s with
  | EmptyString => inr EmptyString
  | String c s' =>
      if RuneSelf <=? byte_val c then inl (TrimFunc s IsSpace)
      else if asciiSpace (byte_val c) then TrimSpace_start s'
      else inr s
  end.

(** The second loop, over [stop], on [p = s[start:stop]]: it falls back to
    [TrimRightFunc(s[start:stop], unicode.IsSpace)] at a non-ASCII byte. *)
Fixpoint TrimSpace_stop (fuel : nat) (p : string) : string :=
  match fuel with
  | O => p
  | S k =>
      match String.get (String.length p - 1) p with
      | None => p
      | Some c =>
          if RuneSelf <=? byte_val c then TrimRightFunc p IsSpace
          else if asciiSpace (byte_val c) then
            TrimSpace_stop k (String.substring 0 (String.length p - 1) p)
          else p
      end
  end.

(** [strings.TrimSpace]. *)
Definition TrimSpace (s : string) : string :=
  match TrimSpace_start s with
  | inl r => r
  | inr t => TrimSpace_stop (String.length t) t
  end.

(** *** Views used by the proofs about [TrimSpace] *)

(** A lead byte of a multi-byte sequence: its [first] entry gives a length
    of 2 to 4 and an accept range inside [0x80, 0xBF]. *)
Definition lead_ok (b : Z) : bool :=
  let x := first b in
  (2 <=? Z.land x 7) && (Z.land x 7 <=? 4) &&
  (locb <=? lo (acceptRanges (Z.shiftr x 4))) && (hi (acceptRanges (Z.shiftr x 4)) <=? hicb) &&
  (0xC2 <=? b).

(** A UTF-8 continuation byte [10xxxxxx]. *)
Definition cont_byte (b : Z) : bool := (0x80 <=? b) && (b <? 0xC0).

(** A string that does not start with a continuation byte. *)
Definition boundary (q : string) : bool :=
  match q with EmptyString => true | String c _ => negb (cont_byte (byte_val c)) end.

(** The end of the last rune of [p] that is not a space, scanning runes
    from the end as [lastIndexFunc] does ([0] when there is none). *)
Fixpoint rtrim_end (fuel : nat) (p : string) : nat :=
  match fuel with
  | O => O
  | S k =>
      match p with
      | EmptyString => O
      | String _ _ =>
          let '(r, size) := DecodeLastRuneInString p in
          if IsSpace r then rtrim_end k (String.substring 0 (String.length p - size) p)
          else String.length p
      end
  end.

(** ** float64 and [strconv.FormatFloat(x, 'f', -1, 64)] *)

(** A float64 is modelled by its class and, when finite, by its shortest
    round-trip decimal form [digits * 10^exp] (the digits [strconv]
    computes with its shortest-representation algorithm) and its sign. *)
Inductive float64 : Type :=
| F_NaN
| F_Inf (neg : bool)
| F_Fin (neg : bool) (digits : N) (exp : Z).

(** Character [j] of the digit string, or '0' outside of it. *)
Definition digit_at (d : string) (j : Z) : Ascii.ascii :=
  if (0 <=? j) && (j <? Z.of_nat (String.length d)) then
    match String.get (Z.to_nat j) d with Some c => c | None => "0"%char end
  else "0"%char.

Fixpoint zeros (n : nat) : string :=
  match n with O => EmptyString | S n' => String "0" (zeros n') end.

(** The integer digits of [fmtF] (strconv/ftoa.go). *)
Definition fmtF_int (d : string) (dp : Z) : string :=
  if 0 <? dp then
    let m := Nat.min (String.length d) (Z.to_nat dp) in
    String.substring 0 m d +:+ zeros (Z.to_nat dp - m)
  else "0".

(** The fraction digits of [fmtF]: characters [dp+i-1] for [i = 1..prec]. *)
Fixpoint fmtF_frac (d : string) (j : Z) (n : nat) : string :=
  match n with
  | O => EmptyString
  | S n' => String (digit_at d j) (fmtF_frac d (j + 1) n')
  end.

Definition fmtF (neg : bool) (d : string) (dp : Z) : string :=
  let prec := Z.max (Z.of_nat (String.length d) - dp) 0 in
  (if neg then "-" else "") +:+ fmtF_int d dp +:+
  (if 0 <? prec then "." +:+ fmtF_frac d dp (Z.to_nat prec) else "").

(** [strconv.FormatFloat(x, 'f', -1, 64)]. For zero the digit string is
    empty ([nd = 0]). *)
Definition FormatFloat (x : float64) : string :=
  match x with
  | F_NaN => "NaN"
  | F_Inf neg => if neg then "-Inf" else "+Inf"
  | F_Fin neg digits exp =>
      let d := if (digits =? 0)%N then EmptyString else pretty digits in
      fmtF neg d (Z.of_nat (String.length d) + exp)
  end.

(** [strconv.FormatBool]. *)
Definition FormatBool (b : bool) : string := if b then "true" else "false".

(** ** The property-value model (notion.go) *)

Record RichText := mkRichText { PlainText : string }.
Record SelectOption := mkSelectOption { so_Name : string }.
Record User := mkUser { u_ID : string; u_Name : string }.
Record DateValue := mkDateValue { dv_Start : string; dv_End : option string }.
Record RelationRef := mkRelationRef { rr_ID : string }.

Record FormulaValue := mkFormulaValue {
  fv_Type : string;
  fv_String : option string;
  fv_Number : option float64;
  fv_Boolean : option bool;
  fv_Date : option DateValue
}.

(** [PropertyValue] and [RollupValue] are mutually recursive through the
    rollup's [Array] of nested property values. A Go pointer field is an
    [option]; a Go slice is a [list] (nil and empty alike). *)
Inductive PropertyValue := mkPropertyValue {
  pv_ID : string;
  pv_Type : string;
  pv_Title : list RichText;
  pv_RichText : list RichText;
  pv_Select : option SelectOption;
  pv_MultiSelect : list SelectOption;
  pv_Status : option SelectOption;
  pv_People : list User;
  pv_Email : option string;
  pv_URL : option string;
  pv_PhoneNumber : option string;
  pv_Number : option float64;
  pv_Checkbox : option bool;
  pv_Date : option DateValue;
  pv_Relation : list RelationRef;
  pv_Formula : option FormulaValue;
  pv_Rollup : option RollupValue
}
with RollupValue := mkRollupValue {
  rv_Type : string;
  rv_Number : option float64;
  rv_Date : option DateValue;
  rv_Array : list PropertyValue
}.

(** ** [ExtractStrings] (notion.go, lines 184-361) *)

(** [concatRichText]: the plain texts joined, then [TrimSpace]. *)
Fixpoint concat_plain (rts : list RichText) : string :=
  match rts with
  | [] => EmptyString
  | rt :: rts' => PlainText rt +:+ concat_plain rts'
  end.

Definition concatRichText (rts : list RichText) : string :=
  TrimSpace (concat_plain rts).

(** The loop of the [multi_select] case. *)
Fixpoint multi_select_names (os : list SelectOption) : list string :=
  match os with
  | [] => []
  | o :: os' =>
      if String.eqb (so_Name o) "" then multi_select_names os'
      else so_Name o :: multi_select_names os'
  end.

(** The loop of the [people] case: the name, else the id, else nothing. *)
Fixpoint people_names (us : list User) : list string :=
  match us with
  | [] => []
  | u :: us' =>
      if negb (String.eqb (u_Name u) "") then u_Name u :: people_names us'
      else if negb (String.eqb (u_ID u) "") then u_ID u :: people_names us'
      else people_names us'
  end.

(** The loop of the [relation] case. *)
Fixpoint relation_ids (rs : list RelationRef) : list string :=
  match rs with
  | [] => []
  | r :: rs' =>
      if String.eqb (rr_ID r) "" then relation_ids rs'
      else rr_ID r :: relation_ids rs'
  end.

(** A pointer to a non-empty string, as in the [email], [url],
    [phone_number] and formula [string] cases. *)
Definition opt_string (s : option string) : list string :=
  match s with
  | None => []
  | Some v => if String.eqb v "" then [] else [v]
  end.

(** The [date] block, written out identically three times in the source
    (the [date] case, and the [date] cases of [formula] and [rollup]). *)
Definition date_strings (d : option DateValue) : list string :=
  match d with
  | None => []
  | Some dv =>
      if String.eqb (dv_Start dv) "" then []
      else match dv_End dv with
           | Some e => if negb (String.eqb e "")
                       then [dv_Start dv +:+ date_sep +:+ e]
                       else [dv_Start dv]
           | None => [dv_Start dv]
           end
  end.

Definition opt_number (n : option float64) : list string :=
  match n with None => [] | Some x => [FormatFloat x] end.

Definition opt_bool (b : option bool) : list string :=
  match b with None => [] | Some x => [FormatBool x] end.

(** The [formula] case: a switch on the formula's inner type. *)
Definition formula_strings (f : option FormulaValue) : list string :=
  match f with
  | None => []
  | Some fv =>
      if String.eqb (fv_Type fv) "string" then opt_string (fv_String fv)
      else if String.eqb (fv_Type fv) "number" then opt_number (fv_Number fv)
      else if String.eqb (fv_Type fv) "boolean" then opt_bool (fv_Boolean fv)
      else if String.eqb (fv_Type fv) "date" then date_strings (fv_Date fv)
      else []
  end.

Fixpoint ExtractStrings (p : PropertyValue) : list string :=
  match p with
  | mkPropertyValue _ ty title rich sel ms st ppl em url ph num cb dt rel fm ru =>
    if String.eqb ty "title" then
      let s := concatRichText title in if String.eqb s "" then [] else [s]
    else if String.eqb ty "rich_text" then
      let s := concatRichText rich in if String.eqb s "" then [] else [s]
    else if String.eqb ty "select" then
      match sel with
      | None => []
      | Some o => if String.eqb (so_Name o) "" then [] else [so_Name o]
      end
    else if String.eqb ty "status" then
      match st with
      | None => []
      | Some o => if String.eqb (so_Name o) "" then [] else [so_Name o]
      end
    else if String.eqb ty "multi_select" then
      match ms with [] => [] | _ => multi_select_names ms end
    else if String.eqb ty "people" then
      match ppl with [] => [] | _ => people_names ppl end
    else if String.eqb ty "email" then opt_string em
    else if String.eqb ty "url" then opt_string url
    else if String.eqb ty "phone_number" then opt_string ph
    else if String.eqb ty "number" then opt_number num
    else if String.eqb ty "checkbox" then opt_bool cb
    else if String.eqb ty "date" then date_strings dt
    else if String.eqb ty "relation" then
      match rel with [] => [] | _ => relation_ids rel end
    else if String.eqb ty "formula" then formula_strings fm
    else if String.eqb ty "rollup" then
      match ru with
      | None => []
      | Some (mkRollupValue rty rnum rdt arr) =>
          if String.eqb rty "number" then opt_number rnum
          else if String.eqb rty "date" then date_strings rdt
          else if String.eqb rty "array" then
            (fix go (items : list PropertyValue) : list string :=
               match items with
               | [] => []
               | item :: items' => ExtractStrings item ++ go items'
               end) arr
          else []
      end
    else []
  end.

(** A property value with every payload field absent. *)
Definition empty_pv (ty : string) : PropertyValue :=
  mkPropertyValue "" ty [] [] None [] None [] None None None None None None []
    None None.

Definition number_pv (x : float64) : PropertyValue :=
  {| pv_ID := ""; pv_Type := "number"; pv_Title := []; pv_RichText := [];
     pv_Select := None; pv_MultiSelect := []; pv_Status := None;
     pv_People := []; pv_Email := None; pv_URL := None;
     pv_PhoneNumber := None; pv_Number := Some x; pv_Checkbox := None;
     pv_Date := None; pv_Relation := []; pv_Formula := None;
     pv_Rollup := None |}.

(** ** Views used to state the extractor's properties *)

(** The expected output of a date per the spec's wording: the start alone,
    or ["{start} → {end}"] when an end is present and non-empty. *)
Definition date_rule_spec (start : string) (end_ : option string) : list string :=
  match end_ with
  | Some e => if String.eqb e "" then [start] else [start +:+ " " +:+ arrow +:+ " " +:+ e]
  | None => [start]
  end.

(** The payload a formula's inner discriminator selects. *)
Inductive FormulaSel :=
| FS_String (s : option string)
| FS_Number (n : option float64)
| FS_Boolean (b : option bool)
| FS_Date (d : option DateValue)
| FS_Other (ty : string).

(** The payload a rollup's inner discriminator selects. *)
Inductive RollupSel :=
| RS_Number (n : option float64)
| RS_Date (d : option DateValue)
| RS_Array (a : list PropertyValue)
| RS_Other (ty : string).

(** The payload the outer [Type] discriminator selects. *)
Inductive Selected :=
| Sel_Title (l : list RichText)
| Sel_RichText (l : list RichText)
| Sel_Select (o : option SelectOption)
| Sel_Status (o : option SelectOption)
| Sel_MultiSelect (l : list SelectOption)
| Sel_People (l : list User)
| Sel_Email (s : option string)
| Sel_URL (s : option string)
| Sel_PhoneNumber (s : option string)
| Sel_Number (n : option float64)
| Sel_Checkbox (b : option bool)
| Sel_Date (d : option DateValue)
| Sel_Relation (l : list RelationRef)
| Sel_Formula (f : option FormulaSel)
| Sel_Rollup (r : option RollupSel)
| Sel_Other (ty : string).

Definition formula_sel (f : FormulaValue) : FormulaSel :=
  if String.eqb (fv_Type f) "string" then FS_String (fv_String f)
  else if String.eqb (fv_Type f) "number" then FS_Number (fv_Number f)
  else if String.eqb (fv_Type f) "boolean" then FS_Boolean (fv_Boolean f)
  else if String.eqb (fv_Type f) "date" then FS_Date (fv_Date f)
  else FS_Other (fv_Type f).

Definition rollup_sel (r : RollupValue) : RollupSel :=
  if String.eqb (rv_Type r) "number" then RS_Number (rv_Number r)
  else if String.eqb (rv_Type r) "date" then RS_Date (rv_Date r)
  else if String.eqb (rv_Type r) "array" then RS_Array (rv_Array r)
  else RS_Other (rv_Type r).

Definition selected (p : PropertyValue) : Selected :=
  let ty := pv_Type p in
  if String.eqb ty "title" then Sel_Title (pv_Title p)
  else if String.eqb ty "rich_text" then Sel_RichText (pv_RichText p)
  else if String.eqb ty "select" then Sel_Select (pv_Select p)
  else if String.eqb ty "status" then Sel_Status (pv_Status p)
  else if String.eqb ty "multi_select" then Sel_MultiSelect (pv_MultiSelect p)
  else if String.eqb ty "people" then Sel_People (pv_People p)
  else if String.eqb ty "email" then Sel_Email (pv_Email p)
  else if String.eqb ty "url" then Sel_URL (pv_URL p)
  else if String.eqb ty "phone_number" then Sel_PhoneNumber (pv_PhoneNumber p)
  else if String.eqb ty "number" then Sel_Number (pv_Number p)
  else if String.eqb ty "checkbox" then Sel_Checkbox (pv_Checkbox p)
  else if String.eqb ty "date" then Sel_Date (pv_Date p)
  else if String.eqb ty "relation" then Sel_Relation (pv_Relation p)
  else if String.eqb ty "formula" then Sel_Formula (option_map formula_sel (pv_Formula p))
  else if String.eqb ty "rollup" then Sel_Rollup (option_map rollup_sel (pv_Rollup p))
  else Sel_Other ty.

(** A value wrapped [n] times in a one-element rollup array. *)
Fixpoint nest_rollup (n : nat) (p : PropertyValue) : PropertyValue :=
  match n with
  | O => p
  | S n' =>
      {| pv_ID := ""; pv_Type := "rollup"; pv_Title := []; pv_RichText := [];
         pv_Select := None; pv_MultiSelect := []; pv_Status := None;
         pv_People := []; pv_Email := None; pv_URL := None;
         pv_PhoneNumber := None; pv_Number := None; pv_Checkbox := None;
         pv_Date := None; pv_Relation := []; pv_Formula := None;
         pv_Rollup := Some (mkRollupValue "array" None None [nest_rollup n' p]) |}
  end.

(** ** The API client: [Client.Do] (notion.go, lines 41-87) *)

(** What the transport gives back for the built request. *)
Inductive HttpOutcome :=
| HttpTransportErr (msg : string)
| HttpResponse (status : Z) (body : string).

(** The message of the non-2xx error,
    [fmt.Errorf("notion API %s %s failed: status=%d body=%s", ...)]. *)
Definition api_error_msg (method path : string) (status : Z) (respBody : string) : string :=
  "notion API " +:+ method +:+ " " +:+ path +:+ " failed: status=" +:+
  pretty status +:+ " body=" +:+ TrimSpace respBody.

Section ClientDo.
Context {A : Type}.

(** [body] is [None] for a nil body, [Some (inl e)] when [json.Marshal]
    fails with [e], [Some (inr bytes)] otherwise; [newreq_err] is the
    error of [http.NewRequestWithContext], if any; [out] is [None] for a
    nil output and otherwise the [json.Unmarshal] into it. The result is
    the error's message, or the decoded output ([None] when [out] is
    nil). *)
Definition Do (method path : string) (body : option (string + string))
    (newreq_err : option string) (outcome : HttpOutcome)
    (out : option (string -> string + A)) : string + option A :=
  match body with
  | Some (inl e) => inl ("marshal request: " +:+ e)
  | _ =>
    match newreq_err with
    | Some e => inl ("new request: " +:+ e)
    | None =>
      match outcome with
      | HttpTransportErr e => inl ("http do: " +:+ e)
      | HttpResponse status respBody =>
        if (status <? 200) || (300 <=? status) then
          inl (api_error_msg method path status respBody)
        else
          match out with
          | None => inr None
          | Some unmarshal =>
              match unmarshal respBody with
              | inl e => inl ("unmarshal response: " +:+ e +:+ " (body=" +:+
                              TrimSpace respBody +:+ ")")
              | inr v => inr (Some v)
              end
          end
      end
    end
  end.
End ClientDo.

(** [needle] occurs in [hay] as a contiguous substring. *)
Fixpoint contains (needle hay : string) : bool :=
  String.prefix needle hay ||
  match hay with
  | EmptyString => false
  | String _ hay' => contains needle hay'
  end.

(** ** The query pipeline of the basic variant (main.go, lines 25-85) *)

Definition DefaultPageSize : Z := 100.
Definition NotionDataSourceID : string := "dc70f391-ee49-4e69-9aad-52c6ac9b16c0".
Definition defaultWhoPropName : string := "Who".

Record QueryRequest := mkQueryRequest {
  PageSize : Z;
  StartCursor : option string
}.

Record Page := mkPage {
  pg_Object : string;
  pg_ID : string;
  pg_Properties : gmap string PropertyValue
}.

Record QueryResponse := mkQueryResponse {
  qr_Object : string;
  qr_Results : list Page;
  qr_HasMore : bool;
  qr_NextCursor : option string
}.

(** The outcome of one [client.Do] call of the loop: its error message, or
    the decoded response. *)
Inductive DoResult :=
| DoErr (msg : string)
| DoOk (resp : QueryResponse).

(** The errors [main] passes to [fatal]. *)
Inductive MainError :=
| ErrMissingToken
| ErrEmptyField
| ErrDo (msg : string)
| ErrPropertyNotFound (field : string)
| ErrWrapped (msg : string)  (* an error wrapped by fmt.Errorf with %w, by its message *).

(** What the run makes observable, in order: the query requests sent
    (method, path, query parameters, body), the lines printed to standard
    output, and the fatal error that ends the process. *)
Inductive Event :=
| EQuery (method path : string) (qp : list (string * string)) (req : QueryRequest)
| EPrintln (line : string)
| EFatal (err : MainError).

Definition query_path : string := "/data_sources/" +:+ NotionDataSourceID +:+ "/query".

Definition query_event (field : string) (cursor : option string) : Event :=
  EQuery "POST" query_path [("filter_properties[]", field)]
    (mkQueryRequest DefaultPageSize cursor).

(** The inner loop over [vals]: trim, skip empty, print. *)
Fixpoint print_values (vals : list string) : list Event :=
  match vals with
  | [] => []
  | v :: vs =>
      let v' := TrimSpace v in
      if String.eqb v' "" then print_values vs else EPrintln v' :: print_values vs
  end.

(** The loop over [resp.Results]; the flag tells whether [fatal] ended the
    process. *)
Fixpoint process_pages (field : string) (pages : list Page) : list Event * bool :=
  match pages with
  | [] => ([], false)
  | pg :: pgs =>
      match pg_Properties pg !! field with
      | None => ([EFatal (ErrPropertyNotFound field)], true)
      | Some prop =>
          let '(evs, aborted) := process_pages field pgs in
          (print_values (ExtractStrings prop) ++ evs, aborted)
      end
  end.

(** [!resp.HasMore || resp.NextCursor == nil || *resp.NextCursor == ""]. *)
Definition stop_cond (resp : QueryResponse) : bool :=
  negb (qr_HasMore resp) ||
  match qr_NextCursor resp with None => true | Some c => String.eqb c "" end.

(** The [for] loop, lines 52-84. The [k]-th element of [replies] is what
    the [k]-th [client.Do] call returns; once [replies] is exhausted the
    trace stops after the request (nothing further is observed). *)
Fixpoint main_loop (field : string) (cursor : option string)
    (replies : list DoResult) : list Event :=
  query_event field cursor ::
  match replies with
  | [] => []
  | DoErr m :: _ => [EFatal (ErrDo m)]
  | DoOk resp :: rest =>
      let '(evs, aborted) := process_pages field (qr_Results resp) in
      evs ++ (if aborted then []
              else if stop_cond resp then []
              else main_loop field (qr_NextCursor resp) rest)
  end.


(** [main] of the basic variant: the token from [-token], else from
    [NOTION_TOKEN]; the trimmed [-field] must be non-empty. *)
Definition main_basic (token_flag env_token field_flag : string)
    (replies : list DoResult) : list Event :=
  let token := let t := TrimSpace token_flag in
               if String.eqb t "" then TrimSpace env_token else t in
  if String.eqb token "" then [EFatal ErrMissingToken]
  else
    let field := TrimSpace field_flag in
    if String.eqb field "" then [EFatal ErrEmptyField]
    else main_loop field None replies.

(** *** Command-line flags, as Go's [flag] package parses them *)

(** The flags the basic variant registers, with their defaults: the two
    [flag.String] calls of [main]. *)
Definition basic_flags : list (string * string) :=
  [("token", ""); ("field", defaultWhoPropName)].

(** The search for ['='] in a flag name, from its second byte on
    ([for i := 1; i < len(name); i++]): the name and the value after
    ['='], if any. *)
Fixpoint split_at_eq (s : string) : string * option string :=
  match s with
  | EmptyString => (EmptyString, None)
  | String c s' =>
      if Ascii.eqb c "=" then (EmptyString, Some s')
      else let '(n, v) := split_at_eq s' in (String c n, v)
  end.

Definition name_value (name : string) : string * option string :=
  match name with
  | EmptyString => (EmptyString, None)
  | String c rest => let '(n, v) := split_at_eq rest in (String c n, v)
  end.

(** One step of [FlagSet.parseOne]: stop (with the arguments left), a
    flag set to a value, an error, or [ErrHelp]. *)
Inductive ParseStep :=
| PStop (rest : list string)
| PSet (name value : string) (rest : list string)
| PErr (msg : string)
| PHelp.

(** The part of [parseOne] after the dashes; every registered flag is a
    string flag, whose [Set] never fails. *)
Definition parse_name (formal : list string) (s name : string) (rest : list string) : ParseStep :=
  match name with
  | EmptyString => PErr ("bad flag syntax: " +:+ s)
  | String c _ =>
      if (Ascii.eqb c "-" || Ascii.eqb c "=")%bool then PErr ("bad flag syntax: " +:+ s)
      else
        let '(n, v) := name_value name in
        if bool_decide (n ∈ formal) then
          match v with
          | Some v => PSet n v rest
          | None =>
              match rest with
              | a :: rest' => PSet n a rest'
              | [] => PErr ("flag needs an argument: -" +:+ n)
              end
          end
        else if (String.eqb n "help" || String.eqb n "h")%bool then PHelp
        else PErr ("flag provided but not defined: -" +:+ n)
  end.

Definition parseOne (formal : list string) (args : list string) : ParseStep :=
  match args with
  | [] => PStop []
  | s :: rest =>
      match s with
      | String c0 (String c1 t) =>
          if negb (Ascii.eqb c0 "-") then PStop args
          else if Ascii.eqb c1 "-" then
            match t with
            | EmptyString => PStop rest
            | _ => parse_name formal s t rest
            end
          else parse_name formal s (String c1 t) rest
      | _ => PStop args
      end
  end.

(** The loop of [FlagSet.Parse]; each step consumes an argument, so
    [len(args)] steps suffice. The flags set, in order, or the error. *)
Fixpoint parse_go (fuel : nat) (formal : list string) (args : list string)
    (acc : list (string * string)) : (string + unit) + list (string * string) :=
  match fuel with
  | O => inr acc
  | S k =>
      match parseOne formal args with
      | PStop _ => inr acc
      | PSet n v rest => parse_go k formal rest (acc ++ [(n, v)])
      | PErr m => inl (inl m)
      | PHelp => inl (inr tt)
      end
  end.

Definition flag_Parse (flags : list (string * string)) (args : list string)
    : (string + unit) + list (string * string) :=
  parse_go (length args) (map fst flags) args [].

(** The value of a flag after parsing: the last one set, else the default. *)
Definition flag_value (flags : list (string * string)) (set : list (string * string))
    (name : string) : string :=
  match List.find (fun p => String.eqb p.1 name) (rev set) with
  | Some (_, v) => v
  | None => default "" (List.find (fun p => String.eqb p.1 name) flags ≫= fun p => Some p.2)
  end.

(** How a run of the basic variant ends: [flag.Parse] (an
    [ExitOnError] flag set) exits with status 2 on an error, 0 on
    [-help], before [main] reads any flag; otherwise [main] runs. *)
Inductive BasicRun :=
| FlagExit (code : Z) (msg : string)
| Ran (evs : list Event).

Definition main_basic_cli (args : list string) (env_token : string)
    (replies : list DoResult) : BasicRun :=
  match flag_Parse basic_flags args with
  | inl (inl msg) => FlagExit 2 msg
  | inl (inr _) => FlagExit 0 "flag: help requested"
  | inr set =>
      Ran (main_basic (flag_value basic_flags set "token") env_token
                      (flag_value basic_flags set "field") replies)
  end.

(** The lines printed to standard output. *)
Fixpoint printed (evs : list Event) : list string :=
  match evs with
  | [] => []
  | EPrintln s :: evs' => s :: printed evs'
  | _ :: evs' => printed evs'
  end.

(** The number of query requests sent. *)
Fixpoint query_count (evs : list Event) : nat :=
  match evs with
  | [] => O
  | EQuery _ _ _ _ :: evs' => S (query_count evs')
  | _ :: evs' => query_count evs'
  end.

(** Views for stating the loop's properties: the lines a page prints, and
    the pages that carry the configured property. *)
Definition page_events (field : string) (pg : Page) : list Event :=
  match pg_Properties pg !! field with
  | Some prop => print_values (ExtractStrings prop)
  | None => []
  end.

Definition has_field (field : string) (pg : Page) : Prop :=
  is_Some (pg_Properties pg !! field).

(** The continuation condition as the spec words it: more pages exist and
    a next cursor is present and non-empty. *)
Definition continue_spec (resp : QueryResponse) : bool :=
  qr_HasMore resp &&
  match qr_NextCursor resp with Some c => negb (String.eqb c "") | None => false end.

(** ** The person upsert variant (main.go, lines 92-253) *)

(** [strings.Split(s, sep)] for a non-empty [sep]: cut at the first
    occurrence of [sep] ([strings.Index]) and continue after it. Each cut
    shortens [s], so [length s + 1] rounds suffice. *)
Fixpoint split_fuel (fuel : nat) (s sep : string) : list string :=
  match fuel with
  | O => [s]
  | S fuel' =>
      match String.index 0 sep s with
      | None => [s]
      | Some m =>
          String.substring 0 m s ::
          split_fuel fuel' (String.substring (m + String.length sep)
                              (String.length s - (m + String.length sep)) s) sep
      end
  end.

Definition Split (s sep : string) : list string :=
  split_fuel (S (String.length s)) s sep.

(** [extractPersons]: split on [", "] and trim each token (empty tokens
    are kept). *)
Definition extractPersons (who : string) : list string :=
  map TrimSpace (Split who ", ").

Definition NotionPeopleDatabaseID : string := "2e7e1d14-ea06-80f8-8635-000bc244940f".

(** The remote state the upsert variant reads and writes: the People
    database (page id and title, in creation order), the supply of fresh
    page ids, the properties of the pages of the queried data source, and
    the outcomes of the coming People and page API calls ([Some e]: that
    call fails with error [e]; once the list is used up, calls succeed). *)
Record World := mkWorld {
  w_people : list (string * string);
  w_next : nat;
  w_pages : gmap string (gmap string PropertyValue);
  w_errors : list (option string)
}.

(** The outcome of the next API call, consumed from the world. *)
Definition api_call (w : World) : option string * World :=
  match w_errors w with
  | [] => (None, w)
  | o :: os => (o, mkWorld (w_people w) (w_next w) (w_pages w) os)
  end.

(** The first entry titled [title]. *)
Fixpoint find_title (people : list (string * string)) (title : string) : option string :=
  match people with
  | [] => None
  | (id, t) :: people' => if String.eqb t title then Some id else find_title people' title
  end.

(** Modelled from the spec: [Client.FindPageByTitle], absent from
    notion.go ("search by database + title-equality filter"; "any API
    error at any step (search, create, update) aborts the entire run"):
    the error of the call, or the first People page whose title equals
    [title], if any. *)
Definition FindPageByTitle (w : World) (title : string) : World * (string + option string) :=
  let '(err, w') := api_call w in
  match err with
  | Some e => (w', inl e)
  | None => (w', inr (find_title (w_people w') title))
  end.

(** Modelled from the spec: [Client.CreatePage], absent from notion.go
    ("create page with database parent and property set"): the error of
    the call, or a new People page titled [title] with a fresh id. *)
Definition CreatePage (w : World) (title : string) : World * (string + string) :=
  let '(err, w') := api_call w in
  match err with
  | Some e => (w', inl e)
  | None =>
      let id := "person-" +:+ pretty (w_next w') in
      (mkWorld (w_people w' ++ [(id, title)]) (S (w_next w')) (w_pages w') (w_errors w'), inr id)
  end.

(** Modelled from the spec: [Client.UpdatePage], absent from notion.go
    ("patch page properties by page identifier"): the error of the call,
    or each property given replaces the page's property of that name and
    the others are kept. *)
Definition UpdatePage (w : World) (pageID : string)
    (props : list (string * PropertyValue)) : World * option string :=
  let '(err, w') := api_call w in
  match err with
  | Some e => (w', Some e)
  | None =>
      let old := default ∅ (w_pages w' !! pageID) in
      (mkWorld (w_people w') (w_next w')
         (<[pageID := foldr (fun kv m => <[kv.1 := kv.2]> m) old props]> (w_pages w'))
         (w_errors w'), None)
  end.

(** Modelled from the spec: [notion.ExtractString], absent from notion.go
    ("extract the property as a single string (title/rich-text style
    extraction)"). *)
Definition ExtractString (p : PropertyValue) : string :=
  if String.eqb (pv_Type p) "title" then concatRichText (pv_Title p)
  else if String.eqb (pv_Type p) "rich_text" then concatRichText (pv_RichText p)
  else "".

(** The observable effects of the upsert variant: printed lines, the
    People searches, the People page creations and the page updates, each
    with the call's outcome ([inl]/[Some]: its error), and the fatal error. *)
Inductive UEvent :=
| UPrintln (line : string)
| USearch (db title : string) (res : string + option string)
| UCreate (db title : string) (res : string + string)
| UUpdate (pageID : string) (props : list (string * PropertyValue)) (res : option string)
| UFatal (err : MainError).

(** The loop over [cleanedPersons] (lines 170-208): skip empty names, find
    or create each person page, and collect the ids in order; an error of
    either call goes to [fatal] (lines 177-179, 201-203), shown by [None]. *)
Fixpoint upsert_names (w : World) (names : list string)
    : World * list UEvent * option (list string) :=
  match names with
  | [] => (w, [], Some [])
  | name :: names' =>
      if String.eqb name "" then upsert_names w names'
      else
        let '(w0, found) := FindPageByTitle w name in
        match found with
        | inl e =>
            (w0, [USearch NotionPeopleDatabaseID name (inl e);
                  UFatal (ErrWrapped ("failed to check for existing people page for " +:+
                                      name +:+ ": " +:+ e))], None)
        | inr (Some id) =>
            let '(w2, evs2, r) := upsert_names w0 names' in
            (w2, [USearch NotionPeopleDatabaseID name (inr (Some id));
                  UPrintln ("Found existing page for " +:+ name +:+ ": " +:+ id)] ++ evs2,
             option_map (cons id) r)
        | inr None =>
            let '(w1, created) := CreatePage w0 name in
            match created with
            | inl e =>
                (w1, [USearch NotionPeopleDatabaseID name (inr None);
                      UCreate NotionPeopleDatabaseID name (inl e);
                      UFatal (ErrWrapped ("failed to create people page for " +:+
                                          name +:+ ": " +:+ e))], None)
            | inr id =>
                let '(w2, evs2, r) := upsert_names w1 names' in
                (w2, [USearch NotionPeopleDatabaseID name (inr None);
                      UCreate NotionPeopleDatabaseID name (inr id);
                      UPrintln ("Created new page for " +:+ name +:+ ": " +:+ id)] ++ evs2,
                 option_map (cons id) r)
            end
        end
  end.

(** The relation value written back (lines 215-225). *)
Definition relation_pv (ids : list string) : PropertyValue :=
  {| pv_ID := ""; pv_Type := "relation"; pv_Title := []; pv_RichText := [];
     pv_Select := None; pv_MultiSelect := []; pv_Status := None;
     pv_People := []; pv_Email := None; pv_URL := None;
     pv_PhoneNumber := None; pv_Number := None; pv_Checkbox := None;
     pv_Date := None; pv_Relation := map mkRelationRef ids; pv_Formula := None;
     pv_Rollup := None |}.

(** The body of the loop over [resp.Results] (lines 156-231) for one page;
    the flag tells whether [fatal] ended the process. A missing ["Name"]
    gives the zero [PropertyValue]. *)
Definition process_person_page (w : World) (srcField : string) (pg : Page)
    : World * list UEvent * bool :=
  let title := default (empty_pv "") (pg_Properties pg !! "Name") in
  let ev_title := UPrintln (ExtractString title) in
  match pg_Properties pg !! srcField with
  | None => (w, [ev_title; UFatal (ErrPropertyNotFound srcField)], true)
  | Some prop =>
      let '(w1, evs, r) := upsert_names w (extractPersons (ExtractString prop)) in
      match r with
      | None => (w1, ev_title :: evs, true)
      | Some [] => (w1, ev_title :: evs, false)
      | Some ids =>
          let props := [("People", relation_pv ids)] in
          let '(w2, res) := UpdatePage w1 (pg_ID pg) props in
          match res with
          | None => (w2, ev_title :: evs ++ [UUpdate (pg_ID pg) props None], false)
          | Some e =>
              (w2, ev_title :: evs ++
                     [UUpdate (pg_ID pg) props (Some e);
                      UFatal (ErrWrapped ("failed to update page " +:+ pg_ID pg +:+ ": " +:+ e))],
               true)
          end
      end
  end.

(** The ids the successful searches found or the successful creations
    returned, in order. *)
Fixpoint resolved_ids (evs : list UEvent) : list string :=
  match evs with
  | [] => []
  | USearch _ _ (inr (Some id)) :: evs' => id :: resolved_ids evs'
  | UCreate _ _ (inr id) :: evs' => id :: resolved_ids evs'
  | _ :: evs' => resolved_ids evs'
  end.

(** The number of page update requests issued. *)
Fixpoint update_count (evs : list UEvent) : nat :=
  match evs with
  | [] => O
  | UUpdate _ _ _ :: evs' => S (update_count evs')
  | _ :: evs' => update_count evs'
  end.


(** ** Views used by the properties *)

(** The display string of one user in the [people] case. *)
Definition user_display (u : User) : option string :=
  if negb (String.eqb (u_Name u) "") then Some (u_Name u)
  else if negb (String.eqb (u_ID u) "") then Some (u_ID u)
  else None.

(** The outer types [ExtractStrings] handles. *)
Definition known_types : list string :=
  ["title"; "rich_text"; "select"; "status"; "multi_select"; "people";
   "email"; "url"; "phone_number"; "number"; "checkbox"; "date";
   "relation"; "formula"; "rollup"].

(** A query event as the loop builds it: the first one, without a
    cursor, or a later one carrying a non-empty cursor. *)
Definition query_ok (field : string) (e : Event) : Prop :=
  match e with
  | EQuery _ _ _ _ =>
      e = query_event field None \/
      exists c, c <> EmptyString /\ e = query_event field (Some c)
  | _ => True
  end.

(** An ASCII decimal digit. *)
Definition is_digit (c : Ascii.ascii) : bool :=
  (Nat.leb 48 (Ascii.nat_of_ascii c) && Nat.leb (Ascii.nat_of_ascii c) 57)%bool.

(** Every byte of [s] satisfies [f]. *)
Fixpoint str_forallb (f : Ascii.ascii -> bool) (s : string) : bool :=
  match s with
  | EmptyString => true
  | String c s' => (f c && str_forallb f s')%bool
  end.

(** The number of occurrences of the byte [c] in [s]. *)
Fixpoint count_char (c : Ascii.ascii) (s : string) : nat :=
  match s with
  | EmptyString => O
  | String c' s' => if Ascii.eqb c c' then S (count_char c s') else count_char c s'
  end.

(** [s] consists of decimal digits only. *)
Definition all_digits (s : string) : bool := str_forallb is_digit s.

(** The separator of [extractPersons]. *)
Definition comma_sep : string := ", ".

(** The titles searched for in the People database, in order. *)
Fixpoint searched_titles (evs : list UEvent) : list string :=
  match evs with
  | [] => []
  | USearch _ t _ :: evs' => t :: searched_titles evs'
  | _ :: evs' => searched_titles evs'
  end.

(** The titles of the People pages created, in order. *)
Fixpoint created_titles (evs : list UEvent) : list string :=
  match evs with
  | [] => []
  | UCreate _ t (inr _) :: evs' => t :: created_titles evs'
  | _ :: evs' => created_titles evs'
  end.

(** The names the loop does not skip. *)
Definition nonempty_names (names : list string) : list string :=
  List.filter (fun n => negb (String.eqb n "")) names.


(** * Properties *)

(** ** Sanity checks on concrete inputs *)

Example FormatFloat_one : FormatFloat (F_Fin false 1 0) = "1".
Proof. reflexivity. Qed.
Example FormatFloat_two_and_half : FormatFloat (F_Fin false 25 (-1)) = "2.5".
Proof. reflexivity. Qed.
Example FormatFloat_small : FormatFloat (F_Fin true 5 (-3)) = "-0.005".
Proof. reflexivity. Qed.
Example FormatFloat_big : FormatFloat (F_Fin false 12 3) = "12000".
Proof. reflexivity. Qed.
Example FormatFloat_zero : FormatFloat (F_Fin false 0 0) = "0".
Proof. reflexivity. Qed.
Example TrimSpace_ex : TrimSpace " a b
" = "a b".
Proof. reflexivity. Qed.

Example Split_two : Split "Alice, Bob" ", " = ["Alice"; "Bob"].
Proof. reflexivity. Qed.
Example Split_empty : Split "" ", " = [""].
Proof. reflexivity. Qed.
Example Split_trailing : Split "Alice, " ", " = ["Alice"; ""].
Proof. reflexivity. Qed.

Example extract_rollup_numbers :
  ExtractStrings
    {| pv_ID := ""; pv_Type := "rollup"; pv_Title := []; pv_RichText := [];
       pv_Select := None; pv_MultiSelect := []; pv_Status := None;
       pv_People := []; pv_Email := None; pv_URL := None;
       pv_PhoneNumber := None; pv_Number := None; pv_Checkbox := None;
       pv_Date := None; pv_Relation := []; pv_Formula := None;
       pv_Rollup := Some (mkRollupValue "array" None None
                    [number_pv (F_Fin false 1 0); number_pv (F_Fin false 25 (-1))])
    |} = ["1"; "2.5"].
Proof. reflexivity. Qed.


(** ** Non-emptiness of the extractor's output *)

Definition nonempty (s : string) : Prop := s <> EmptyString.

Lemma append_nonempty_l (s1 s2 : string) : nonempty s1 -> nonempty (s1 +:+ s2).
Proof. destruct s1; simpl; [done | discriminate]. Qed.

Lemma append_nonempty_r (s1 s2 : string) : nonempty s2 -> nonempty (s1 +:+ s2).
Proof. destruct s1; simpl; [done | discriminate]. Qed.

Lemma eqb_empty_false (s : string) : String.eqb s "" = false -> nonempty s.
Proof. intros H ->. discriminate. Qed.

Lemma zeros_empty (n : nat) : zeros n = EmptyString -> n = O.
Proof. destruct n; simpl; [done | discriminate]. Qed.

Lemma fmtF_int_nonempty (d : string) (dp : Z) : nonempty (fmtF_int d dp).
Proof.
  unfold fmtF_int. destruct (0 <? dp) eqn:Hdp; [|discriminate].
  apply Z.ltb_lt in Hdp.
  destruct d as [|c d']; simpl.
  - apply append_nonempty_r. intros H. apply zeros_empty in H. lia.
  - destruct (Z.to_nat dp) as [|k] eqn:Hk; [lia|]. simpl. discriminate.
Qed.

Lemma FormatFloat_nonempty (x : float64) : nonempty (FormatFloat x).
Proof.
  destruct x as [|[]|neg digits exp]; simpl; try discriminate.
  unfold fmtF. apply append_nonempty_r, append_nonempty_l, fmtF_int_nonempty.
Qed.

Lemma FormatBool_nonempty (b : bool) : nonempty (FormatBool b).
Proof. destruct b; discriminate. Qed.

Lemma multi_select_names_nonempty os : Forall nonempty (multi_select_names os).
Proof.
  induction os as [|o os IH]; simpl; [constructor|].
  destruct (String.eqb (so_Name o) "") eqn:E; [done|].
  constructor; [by apply eqb_empty_false | done].
Qed.

Lemma people_names_nonempty us : Forall nonempty (people_names us).
Proof.
  induction us as [|u us IH]; simpl; [constructor|].
  destruct (String.eqb (u_Name u) "") eqn:E1; simpl.
  - destruct (String.eqb (u_ID u) "") eqn:E2; simpl; [done|].
    constructor; [by apply eqb_empty_false | done].
  - constructor; [by apply eqb_empty_false | done].
Qed.

Lemma relation_ids_nonempty rs : Forall nonempty (relation_ids rs).
Proof.
  induction rs as [|r rs IH]; simpl; [constructor|].
  destruct (String.eqb (rr_ID r) "") eqn:E; [done|].
  constructor; [by apply eqb_empty_false | done].
Qed.

Lemma opt_string_nonempty s : Forall nonempty (opt_string s).
Proof.
  destruct s as [v|]; simpl; [|constructor].
  destruct (String.eqb v "") eqn:E; repeat constructor. by apply eqb_empty_false.
Qed.

Lemma opt_number_nonempty n : Forall nonempty (opt_number n).
Proof. destruct n; repeat constructor. apply FormatFloat_nonempty. Qed.

Lemma opt_bool_nonempty b : Forall nonempty (opt_bool b).
Proof. destruct b; repeat constructor. apply FormatBool_nonempty. Qed.

Lemma date_strings_nonempty d : Forall nonempty (date_strings d).
Proof.
  destruct d as [[st en]|]; simpl; [|constructor].
  destruct (String.eqb st "") eqn:E; [constructor|].
  apply eqb_empty_false in E.
  destruct en as [e|]; [destruct (String.eqb e "")|]; simpl;
    repeat constructor; try done; by apply append_nonempty_l.
Qed.

Lemma formula_strings_nonempty f : Forall nonempty (formula_strings f).
Proof.
  destruct f as [fv|]; simpl; [|constructor].
  repeat case_match; auto using opt_string_nonempty, opt_number_nonempty,
    opt_bool_nonempty, date_strings_nonempty.
Qed.

Lemma concat_case_nonempty (s : string) :
  Forall nonempty (if String.eqb s "" then [] else [s]).
Proof.
  destruct (String.eqb s "") eqn:E; repeat constructor. by apply eqb_empty_false.
Qed.

Lemma select_case_nonempty (o : option SelectOption) :
  Forall nonempty (match o with
                   | None => []
                   | Some o => if String.eqb (so_Name o) "" then [] else [so_Name o]
                   end).
Proof. destruct o; [apply concat_case_nonempty | constructor]. Qed.

(** C2: for every property value, including arbitrarily nested rollup
    arrays, every string ExtractStrings returns is non-empty. *)
Theorem ExtractStrings_nonempty : forall p : PropertyValue,
  Forall nonempty (ExtractStrings p).
Proof.
  fix IH 1.
  intros [id ty title rich sel ms st ppl em url ph num cb dt rel fm ru].
  simpl.
  repeat match goal with
  | |- context [if String.eqb ty ?k then _ else _] => destruct (String.eqb ty k)
  end;
  auto using concat_case_nonempty, select_case_nonempty, opt_string_nonempty,
    opt_number_nonempty, opt_bool_nonempty, date_strings_nonempty,
    formula_strings_nonempty, Forall_nil_2.
  - destruct ms; auto using multi_select_names_nonempty.
  - destruct ppl; auto using people_names_nonempty.
  - destruct rel; auto using relation_ids_nonempty.
  - destruct ru as [[rty rnum rdt arr]|]; [|constructor].
    repeat match goal with
    | |- context [if String.eqb rty ?k then _ else _] => destruct (String.eqb rty k)
    end; auto using opt_number_nonempty, date_strings_nonempty.
    revert arr. fix go 1. intros [|item items]; [constructor|].
    apply Forall_app; split; [apply IH | apply go].
Qed.

(** ** Dates *)

Lemma date_strings_rule (d : DateValue) :
  dv_Start d <> EmptyString ->
  date_strings (Some d) = date_rule_spec (dv_Start d) (dv_End d).
Proof.
  destruct d as [st en]; simpl; intros Hst.
  destruct (String.eqb st "") eqn:E; [apply String.eqb_eq in E; contradiction|].
  destruct en as [e|]; [|done].
  unfold date_rule_spec. destruct (String.eqb e ""); reflexivity.
Qed.

(** C4: a date with a non-empty start is rendered as [start] when the end
    is absent or empty and as [start → end] otherwise; the [date] cases of
    [formula] and [rollup] follow the same rule. *)
Theorem ExtractStrings_date (d : DateValue) :
  dv_Start d <> EmptyString ->
  (forall p, pv_Type p = "date" -> pv_Date p = Some d ->
     ExtractStrings p = date_rule_spec (dv_Start d) (dv_End d)) /\
  (forall p f, pv_Type p = "formula" -> pv_Formula p = Some f ->
     fv_Type f = "date" -> fv_Date f = Some d ->
     ExtractStrings p = date_rule_spec (dv_Start d) (dv_End d)) /\
  (forall p r, pv_Type p = "rollup" -> pv_Rollup p = Some r ->
     rv_Type r = "date" -> rv_Date r = Some d ->
     ExtractStrings p = date_rule_spec (dv_Start d) (dv_End d)).
Proof.
  intros Hst. split; [|split].
  - intros [] Hty Hd; simpl in *; subst. by apply date_strings_rule.
  - intros [] [] Hty Hf Hfty Hfd; simpl in *; subst.
    unfold formula_strings; simpl. by apply date_strings_rule.
  - intros [] [] Hty Hr Hrty Hrd; simpl in *; subst; simpl.
    by apply date_strings_rule.
Qed.

Definition jan1_5 : DateValue := mkDateValue "2024-01-01" (Some "2024-01-05").

Definition date_pv (d : DateValue) : PropertyValue :=
  {| pv_ID := ""; pv_Type := "date"; pv_Title := []; pv_RichText := [];
     pv_Select := None; pv_MultiSelect := []; pv_Status := None;
     pv_People := []; pv_Email := None; pv_URL := None;
     pv_PhoneNumber := None; pv_Number := None; pv_Checkbox := None;
     pv_Date := Some d; pv_Relation := []; pv_Formula := None;
     pv_Rollup := None |}.

Lemma ExtractStrings_date_witness :
  ExtractStrings (date_pv jan1_5) = ["2024-01-01" +:+ date_sep +:+ "2024-01-05"] /\
  ExtractStrings (date_pv (mkDateValue "2024-01-01" None)) = ["2024-01-01"].
Proof.
  split.
  - refine (proj1 (ExtractStrings_date jan1_5 _) (date_pv jan1_5) _ _);
      [discriminate | reflexivity | reflexivity].
  - refine (proj1 (ExtractStrings_date (mkDateValue "2024-01-01" None) _) _ _ _);
      [discriminate | reflexivity | reflexivity].
Defined.

(** ** Dependence on the selected payload only *)

Lemma formula_sel_strings (f g : FormulaValue) :
  formula_sel f = formula_sel g ->
  formula_strings (Some f) = formula_strings (Some g).
Proof.
  destruct f, g; unfold formula_sel, formula_strings; simpl.
  intros H. repeat case_match; simplify_eq; done.
Qed.

(** C9: [ExtractStrings] reads only the [Type] discriminator and the payload
    field it selects (for formulas and rollups: their inner discriminator
    and the field that one selects); all other fields are ignored. *)
Theorem ExtractStrings_selected_only (p q : PropertyValue) :
  pv_Type p = pv_Type q ->
  selected p = selected q ->
  ExtractStrings p = ExtractStrings q.
Proof.
  destruct p as [id ty title rich sel ms st ppl em url ph num cb dt rel fm ru],
    q as [id' ty' title' rich' sel' ms' st' ppl' em' url' ph' num' cb' dt' rel' fm' ru'].
  simpl. intros <-. unfold selected; simpl.
  repeat match goal with
  | |- context [if String.eqb ty ?k then _ else _] => destruct (String.eqb ty k)
  end; intros H; simplify_eq; try done.
  - destruct fm as [f|], fm' as [g|]; simplify_eq; [|done].
    by apply formula_sel_strings.
  - destruct ru as [[rty rnum rdt arr]|], ru' as [[rty' rnum' rdt' arr']|];
      simplify_eq; [|done].
    unfold rollup_sel in H; simpl in H.
    repeat case_match; simplify_eq; done.
Qed.

Definition select_pv (name : string) (email : option string) : PropertyValue :=
  {| pv_ID := ""; pv_Type := "select"; pv_Title := []; pv_RichText := [];
     pv_Select := Some (mkSelectOption name); pv_MultiSelect := [];
     pv_Status := None; pv_People := []; pv_Email := email; pv_URL := None;
     pv_PhoneNumber := None; pv_Number := None; pv_Checkbox := None;
     pv_Date := None; pv_Relation := []; pv_Formula := None;
     pv_Rollup := None |}.

Lemma ExtractStrings_selected_only_witness :
  ExtractStrings (select_pv "A" None) = ExtractStrings (select_pv "A" (Some "x@y")).
Proof.
  apply ExtractStrings_selected_only; reflexivity.
Defined.

(** ** Termination *)

(** C10: [ExtractStrings] is a structurally recursive function (its only
    recursive calls are on the elements of a rollup array), hence total;
    a value nested in rollup arrays to any finite depth [n] yields a result,
    the same as the value itself. *)
Theorem ExtractStrings_total :
  (forall p : PropertyValue, exists out, ExtractStrings p = out) /\
  (forall (n : nat) (p : PropertyValue),
     ExtractStrings (nest_rollup n p) = ExtractStrings p).
Proof.
  split.
  - intros p. by exists (ExtractStrings p).
  - induction n as [|n IH]; intros p; simpl; [done|].
    rewrite app_nil_r. apply IH.
Qed.

(** ** The query loop *)

Lemma query_count_app (a b : list Event) :
  query_count (a ++ b) = (query_count a + query_count b)%nat.
Proof. induction a as [|[] a IH]; simpl; auto. Qed.

Lemma printed_app (a b : list Event) : printed (a ++ b) = printed a ++ printed b.
Proof. induction a as [|[] a IH]; simpl; try rewrite IH; auto. Qed.

Lemma query_count_print_values (vs : list string) : query_count (print_values vs) = O.
Proof. induction vs as [|v vs IH]; simpl; [done|]. by case_match. Qed.

Lemma query_count_pages (field : string) (pages : list Page) :
  query_count (concat (map (page_events field) pages)) = O.
Proof.
  induction pages as [|pg pgs IH]; simpl; [done|].
  rewrite query_count_app, IH. unfold page_events.
  case_match; [by rewrite query_count_print_values | done].
Qed.

Lemma process_pages_all (field : string) (pages : list Page) :
  Forall (has_field field) pages ->
  process_pages field pages = (concat (map (page_events field) pages), false).
Proof.
  induction 1 as [|pg pgs [prop Hprop] _ IH]; simpl; [done|].
  rewrite Hprop, IH. unfold page_events. by rewrite Hprop.
Qed.

Lemma process_pages_missing (field : string) (pre post : list Page) (bad : Page) :
  Forall (has_field field) pre ->
  pg_Properties bad !! field = None ->
  process_pages field (pre ++ bad :: post) =
    (concat (map (page_events field) pre) ++ [EFatal (ErrPropertyNotFound field)], true).
Proof.
  intros Hpre Hbad. induction Hpre as [|pg pgs [prop Hprop] _ IH]; simpl.
  - by rewrite Hbad.
  - rewrite Hprop, IH. unfold page_events. rewrite Hprop. by rewrite app_assoc.
Qed.

Lemma stop_cond_continue (resp : QueryResponse) :
  stop_cond resp = negb (continue_spec resp).
Proof.
  unfold stop_cond, continue_spec.
  destruct (qr_HasMore resp), (qr_NextCursor resp); simpl; auto.
  by destruct (String.eqb _ _).
Qed.

(** One iteration of the loop on a response whose pages all carry the
    property: the request, the lines of its pages in order, then the next
    iteration exactly when [continue_spec] holds. *)
Lemma main_loop_step (field : string) (cursor : option string)
    (resp : QueryResponse) (rest : list DoResult) :
  Forall (has_field field) (qr_Results resp) ->
  main_loop field cursor (DoOk resp :: rest) =
    query_event field cursor ::
    concat (map (page_events field) (qr_Results resp)) ++
    (if continue_spec resp then main_loop field (qr_NextCursor resp) rest else []).
Proof.
  intros Hall. simpl. rewrite (process_pages_all field _ Hall).
  rewrite stop_cond_continue. by destruct (continue_spec resp).
Qed.

(** C1: the loop continues exactly while the response has more pages and a
    present, non-empty next cursor; on a first response with [has_more]
    and a non-empty cursor followed by a response without [has_more], the
    loop sends exactly two queries, the second with the first response's
    cursor as [start_cursor], and prints the first response's values and
    then the second's, in order. *)
Theorem query_pagination (field : string) :
  (forall (cursor : option string) (resp : QueryResponse) (rest : list DoResult),
     Forall (has_field field) (qr_Results resp) ->
     main_loop field cursor (DoOk resp :: rest) =
       query_event field cursor ::
       concat (map (page_events field) (qr_Results resp)) ++
       (if continue_spec resp then main_loop field (qr_NextCursor resp) rest
        else [])) /\
  (forall (c : string) (r1 r2 : QueryResponse) (rest : list DoResult),
     qr_HasMore r1 = true -> qr_NextCursor r1 = Some c -> c <> EmptyString ->
     qr_HasMore r2 = false ->
     Forall (has_field field) (qr_Results r1) ->
     Forall (has_field field) (qr_Results r2) ->
     let evs := main_loop field None (DoOk r1 :: DoOk r2 :: rest) in
     evs = query_event field None ::
           concat (map (page_events field) (qr_Results r1)) ++
           query_event field (Some c) ::
           concat (map (page_events field) (qr_Results r2)) /\
     query_count evs = 2%nat /\
     printed evs = printed (concat (map (page_events field) (qr_Results r1))) ++
                   printed (concat (map (page_events field) (qr_Results r2)))).
Proof.
  split; [apply main_loop_step|].
  intros c r1 r2 rest Hm1 Hc1 Hc Hm2 H1 H2 evs.
  assert (Hevs : evs = query_event field None ::
           concat (map (page_events field) (qr_Results r1)) ++
           query_event field (Some c) ::
           concat (map (page_events field) (qr_Results r2))).
  { assert (K1 : continue_spec r1 = true).
    { unfold continue_spec. rewrite Hm1, Hc1. simpl.
      by apply negb_true_iff, String.eqb_neq. }
    assert (K2 : continue_spec r2 = false).
    { unfold continue_spec. by rewrite Hm2. }
    unfold evs. rewrite (main_loop_step _ _ _ _ H1), K1, Hc1.
    rewrite (main_loop_step _ _ _ _ H2), K2. by rewrite app_nil_r. }
  split; [done|]. rewrite Hevs. split.
  - simpl. rewrite query_count_app. simpl. rewrite !query_count_pages. done.
  - simpl. rewrite printed_app. simpl. done.
Qed.

(** A page whose property [field] is a select named [name]. *)
Definition select_page (id field name : string) : Page :=
  mkPage "page" id {[ field := select_pv name None ]}.

Definition resp_of (pages : list Page) (more : bool) (next : option string) : QueryResponse :=
  mkQueryResponse "list" pages more next.

Lemma query_pagination_witness :
  let evs := main_loop "Who" None
               [DoOk (resp_of [select_page "p1" "Who" "b"] true (Some "c1"));
                DoOk (resp_of [select_page "p2" "Who" "a"] false None)] in
  query_count evs = 2%nat /\ printed evs = ["b"; "a"].
Proof.
  destruct (proj2 (query_pagination "Who") "c1"
              (resp_of [select_page "p1" "Who" "b"] true (Some "c1"))
              (resp_of [select_page "p2" "Who" "a"] false None) []
              eq_refl eq_refl ltac:(discriminate) eq_refl
              ltac:(repeat constructor; eexists; reflexivity)
              ltac:(repeat constructor; eexists; reflexivity))
    as (_ & Hq & Hp).
  split; [exact Hq | rewrite Hp; reflexivity].
Defined.

(** C6: when a response contains a page without the configured property,
    the run ends with the not-found error at the first such page: only the
    values of the pages before it are printed, and nothing of that page,
    of the later pages of the response, or of any later response. *)
Theorem query_missing_property_aborts (field : string) (cursor : option string)
    (resp : QueryResponse) (rest : list DoResult) (pre post : list Page) (bad : Page) :
  qr_Results resp = pre ++ bad :: post ->
  Forall (has_field field) pre ->
  pg_Properties bad !! field = None ->
  main_loop field cursor (DoOk resp :: rest) =
    query_event field cursor ::
    concat (map (page_events field) pre) ++ [EFatal (ErrPropertyNotFound field)].
Proof.
  intros Hres Hpre Hbad. simpl. rewrite Hres.
  rewrite (process_pages_missing field pre post bad Hpre Hbad).
  by rewrite app_nil_r.
Qed.

Lemma query_missing_property_aborts_witness :
  main_loop "Who" None
    [DoOk (resp_of [select_page "p1" "Who" "b"; select_page "p2" "Other" "x";
                    select_page "p3" "Who" "c"] true (Some "c1"));
     DoOk (resp_of [select_page "p4" "Who" "d"] false None)] =
  [query_event "Who" None; EPrintln "b"; EFatal (ErrPropertyNotFound "Who")].
Proof.
  refine (query_missing_property_aborts "Who" None
            (resp_of [select_page "p1" "Who" "b"; select_page "p2" "Other" "x";
                      select_page "p3" "Who" "c"] true (Some "c1"))
            [DoOk (resp_of [select_page "p4" "Who" "d"] false None)]
            [select_page "p1" "Who" "b"] [select_page "p3" "Who" "c"]
            (select_page "p2" "Other" "x") eq_refl _ eq_refl).
  repeat constructor. eexists. reflexivity.
Defined.

(** ** Output mode of the basic variant *)

Definition bab_response : QueryResponse :=
  resp_of [select_page "p1" "Who" "b"; select_page "p2" "Who" "a";
           select_page "p3" "Who" "b"] false None.

(** C8 (code_bug): the README documents a [-unique] option ("Print unique
    values only, sorted"), but the basic variant registers only [-token]
    and [-field]: [flag.Parse] rejects [-unique] and the process exits with
    status 2, and a run without it prints the extracted values [b, a, b] as
    they stream, duplicates kept, never [a, b]. *)
Theorem unique_flag_not_defined :
  main_basic_cli ["-unique"] "secret" [DoOk bab_response] =
    FlagExit 2 "flag provided but not defined: -unique" /\
  main_basic_cli ["-field"; "Who"] "secret" [DoOk bab_response] =
    Ran (main_basic "" "secret" "Who" [DoOk bab_response]) /\
  printed (main_basic "" "secret" "Who" [DoOk bab_response]) = ["b"; "a"; "b"].
Proof. split; [|split]; vm_compute; reflexivity. Qed.

(** ** Person-name splitting *)

(** C3 (as stated, refuted): ["Bob,  Carol"] itself contains [", "], so the
    input is cut twice, and the token [" Carol"] is trimmed. *)
Lemma extractPersons_counterexample :
  extractPersons "Alice, Bob,  Carol" <> ["Alice"; "Bob,  Carol"].
Proof. vm_compute. discriminate. Qed.

(** C3 (amended): splitting ["Alice, Bob,  Carol"] on the exact [", "]
    cuts it into ["Alice"], ["Bob"] and [" Carol"]; trimming gives the
    three names [Alice], [Bob], [Carol]. *)
Theorem extractPersons_example :
  Split "Alice, Bob,  Carol" ", " = ["Alice"; "Bob"; " Carol"] /\
  extractPersons "Alice, Bob,  Carol" = ["Alice"; "Bob"; "Carol"].
Proof. split; reflexivity. Qed.

(** ** The client's status check *)

Lemma prefix_append (s b : string) : String.prefix s (s +:+ b) = true.
Proof.
  induction s as [|x s IH]; simpl; [by destruct b|].
  destruct (Ascii.ascii_dec x x); [done | contradiction].
Qed.

Lemma contains_here (s b : string) : contains s (s +:+ b) = true.
Proof.
  assert (E : forall h, contains s h =
    (String.prefix s h || match h with
                          | EmptyString => false
                          | String _ h' => contains s h'
                          end)%bool) by (intros []; reflexivity).
  by rewrite E, prefix_append.
Qed.

Lemma append_empty_r (s : string) : s +:+ EmptyString = s.
Proof.
  induction s as [|x s IH]; [done|].
  change (String x (s +:+ EmptyString) = String x s). by rewrite IH.
Qed.

Lemma contains_refl (s : string) : contains s s = true.
Proof. pose proof (contains_here s EmptyString) as H. by rewrite append_empty_r in H. Qed.

Lemma contains_later (s a b : string) : contains s b = true -> contains s (a +:+ b) = true.
Proof.
  intros H. induction a as [|x a IH]; simpl; [done|].
  rewrite IH. apply orb_true_r.
Qed.

(** The error message names the method, the path, the status and the
    trimmed body. *)
Lemma api_error_msg_contains (method path : string) (status : Z) (respBody : string) :
  let msg := api_error_msg method path status respBody in
  contains method msg = true /\ contains path msg = true /\
  contains (pretty status) msg = true /\ contains (TrimSpace respBody) msg = true.
Proof.
  unfold api_error_msg.
  repeat split;
    repeat first [ apply contains_refl | apply contains_here | apply contains_later ].
Qed.

(** C7 (as stated, refuted): the message carries the body after
    [strings.TrimSpace], so a body ending in a newline does not occur in it
    as received. *)
Lemma Do_raw_body_counterexample :
  exists msg,
    @Do unit "POST" "/pages" None None (HttpResponse 404 "oops
") None = inl msg /\
    contains "oops
" msg = false.
Proof.
  eexists. split; [reflexivity | vm_compute; reflexivity].
Qed.

(** C7 (amended): a response whose status is outside [200, 300) makes [Do]
    fail, before any decoding, with the message that names the method, the
    path, the decimal status code and the body with surrounding whitespace
    trimmed; for a 2xx response [Do] returns the decoding's outcome: nothing
    to decode gives [nil], a successful decoding gives the decoded value,
    and a failed one gives the unmarshal error, which is the only error. *)
Theorem Do_status_check {A : Type} (method path : string) (body : option string)
    (status : Z) (respBody : string) (out : option (string -> string + A)) :
  (~ (200 <= status < 300) ->
   Do method path (option_map inr body) None (HttpResponse status respBody) out =
     inl (api_error_msg method path status respBody) /\
   (let msg := api_error_msg method path status respBody in
    contains method msg = true /\ contains path msg = true /\
    contains (pretty status) msg = true /\ contains (TrimSpace respBody) msg = true)) /\
  (200 <= status < 300 ->
   (out = None ->
    Do method path (option_map inr body) None (HttpResponse status respBody) out = inr None) /\
   (forall unmarshal v, out = Some unmarshal -> unmarshal respBody = inr v ->
    Do method path (option_map inr body) None (HttpResponse status respBody) out = inr (Some v)) /\
   (forall unmarshal e, out = Some unmarshal -> unmarshal respBody = inl e ->
    Do method path (option_map inr body) None (HttpResponse status respBody) out =
      inl ("unmarshal response: " +:+ e +:+ " (body=" +:+ TrimSpace respBody +:+ ")")) /\
   (forall msg,
     Do method path (option_map inr body) None (HttpResponse status respBody) out = inl msg ->
     String.prefix "unmarshal response: " msg = true)).
Proof.
  split.
  - intros Hst. split; [|apply api_error_msg_contains].
    assert (E : ((status <? 200) || (300 <=? status))%bool = true).
    { destruct (Z.ltb_spec status 200), (Z.leb_spec 300 status); simpl; auto; lia. }
    destruct body; simpl; by rewrite E.
  - intros Hst.
    assert (E : ((status <? 200) || (300 <=? status))%bool = false).
    { destruct (Z.ltb_spec status 200), (Z.leb_spec 300 status); simpl; auto; lia. }
    split; [|split; [|split]].
    + intros ->. destruct body; simpl; by rewrite E.
    + intros unmarshal v -> Hv. destruct body; simpl; by rewrite E, Hv.
    + intros unmarshal e -> He. destruct body; simpl; by rewrite E, He.
    + intros msg.
      destruct body; simpl; rewrite E;
        destruct out as [unmarshal|]; try discriminate;
        destruct (unmarshal respBody); intros H; simplify_eq; apply prefix_append.
Qed.

Lemma Do_status_check_witness :
  @Do unit "POST" "/pages" None None (HttpResponse 404 "oops") None =
    inl "notion API POST /pages failed: status=404 body=oops" /\
  @Do unit "POST" "/pages" None None (HttpResponse 200 "{}") (Some (fun _ => inr tt)) =
    inr (Some tt) /\
  @Do unit "POST" "/pages" None None (HttpResponse 200 "{")
    (Some (fun _ => inl "unexpected EOF")) =
    inl "unmarshal response: unexpected EOF (body={)".
Proof.
  split; [|split].
  - destruct (proj1 (@Do_status_check unit "POST" "/pages" None 404 "oops" None)
                ltac:(lia)) as [H _].
    etransitivity; [exact H|]. vm_compute. reflexivity.
  - exact (proj1 (proj2 (proj2 (@Do_status_check unit "POST" "/pages" None 200 "{}"
                                  (Some (fun _ => inr tt))) ltac:(lia)))
                 (fun _ => inr tt) tt eq_refl eq_refl).
  - etransitivity;
      [exact (proj1 (proj2 (proj2 (proj2 (@Do_status_check unit "POST" "/pages" None 200 "{"
                               (Some (fun _ => inl "unexpected EOF"))) ltac:(lia))))
                (fun _ => inl "unexpected EOF") "unexpected EOF" eq_refl eq_refl)|].
    vm_compute. reflexivity.
Defined.

(** ** The person upsert flow *)

Lemma resolved_ids_app (a b : list UEvent) :
  resolved_ids (a ++ b) = resolved_ids a ++ resolved_ids b.
Proof.
  induction a as [|e a IH]; [done|]. simpl. repeat case_match; simpl; by rewrite ?IH.
Qed.

Lemma update_count_app (a b : list UEvent) :
  update_count (a ++ b) = (update_count a + update_count b)%nat.
Proof.
  induction a as [|e a IH]; [done|]. simpl. repeat case_match; simpl; by rewrite ?IH.
Qed.

(** An API call only consumes its outcome. *)
Lemma api_call_frame (w : World) :
  w_people (api_call w).2 = w_people w /\ w_next (api_call w).2 = w_next w /\
  w_pages (api_call w).2 = w_pages w.
Proof. unfold api_call. by destruct (w_errors w). Qed.

Lemma api_call_ok (w : World) :
  Forall (fun o => o = None) (w_errors w) ->
  (api_call w).1 = None /\ Forall (fun o => o = None) (w_errors (api_call w).2).
Proof.
  intros Hf. unfold api_call. destruct (w_errors w) as [|o os] eqn:E; simpl; [by rewrite E|].
  by inversion Hf; subst.
Qed.

Lemma FindPageByTitle_frame (w : World) (t : string) (w' : World) (res : string + option string) :
  FindPageByTitle w t = (w', res) ->
  w_people w' = w_people w /\ w_next w' = w_next w /\ w_pages w' = w_pages w /\
  (forall x, res = inr x -> x = find_title (w_people w) t).
Proof.
  unfold FindPageByTitle. pose proof (api_call_frame w) as Hf.
  destruct (api_call w) as [[e|] w0]; simpl in Hf; destruct Hf as (Hp & Hn & Hg);
    intros H; simplify_eq; split_and!; try done.
  intros x Hx. simplify_eq. by rewrite Hp.
Qed.

Lemma FindPageByTitle_ok (w : World) (t : string) (w' : World) (res : string + option string) :
  Forall (fun o => o = None) (w_errors w) ->
  FindPageByTitle w t = (w', res) ->
  res = inr (find_title (w_people w) t) /\ Forall (fun o => o = None) (w_errors w').
Proof.
  intros Hok H. destruct (FindPageByTitle_frame _ _ _ _ H) as (_ & _ & _ & Hx).
  unfold FindPageByTitle in H. destruct (api_call_ok w Hok) as [He Hw].
  destruct (api_call w) as [o w0]. simpl in He, Hw. subst o. simplify_eq.
  split; [by rewrite (Hx _ eq_refl)|done].
Qed.

Lemma CreatePage_frame (w : World) (t : string) (w' : World) (res : string + string) :
  CreatePage w t = (w', res) ->
  w_pages w' = w_pages w /\
  (forall e, res = inl e -> w_people w' = w_people w) /\
  (forall id, res = inr id -> w_people w' = w_people w ++ [(id, t)]).
Proof.
  unfold CreatePage. pose proof (api_call_frame w) as Hf.
  destruct (api_call w) as [[e|] w0]; simpl in Hf; destruct Hf as (Hp & Hn & Hg);
    intros H; simplify_eq; split_and!; simpl; try done; intros ? ?; simplify_eq; by rewrite Hp.
Qed.

Lemma CreatePage_ok_errors (w : World) (t : string) (w' : World) (res : string + string) :
  Forall (fun o => o = None) (w_errors w) -> CreatePage w t = (w', res) ->
  (exists id, res = inr id) /\ Forall (fun o => o = None) (w_errors w').
Proof.
  intros Hok H. unfold CreatePage in H. destruct (api_call_ok w Hok) as [He Hw].
  destruct (api_call w) as [o w0]. simpl in He, Hw. subst o. simplify_eq.
  split; [by eexists|done].
Qed.

Lemma UpdatePage_frame (w : World) (pid : string) (props : list (string * PropertyValue))
    (w' : World) (res : option string) :
  UpdatePage w pid props = (w', res) ->
  w_people w' = w_people w /\
  (res <> None -> w_pages w' = w_pages w) /\
  (res = None ->
   w_pages w' = <[pid := foldr (fun kv m => <[kv.1 := kv.2]> m)
                           (default ∅ (w_pages w !! pid)) props]> (w_pages w)).
Proof.
  unfold UpdatePage. pose proof (api_call_frame w) as Hf.
  destruct (api_call w) as [[e|] w0]; simpl in Hf; destruct Hf as (Hp & Hn & Hg);
    intros H; simplify_eq; split_and!; simpl; try done; intros _; by rewrite Hg.
Qed.

(** The loop over the names touches only the People database and issues
    no update; when it completes, it collects exactly the ids its searches
    and creations produced, and with no id collected it did nothing at
    all; when a call fails, its last event is the fatal error. *)
Lemma upsert_names_spec (names : list string) :
  forall (w w1 : World) (evs : list UEvent) (r : option (list string)),
    upsert_names w names = (w1, evs, r) ->
    w_pages w1 = w_pages w /\ update_count evs = O /\
    (forall ids, r = Some ids -> resolved_ids evs = ids /\ (ids = [] -> w1 = w /\ evs = [])) /\
    (r = None -> exists pre m, evs = pre ++ [UFatal (ErrWrapped m)]).
Proof.
  induction names as [|name names IH]; intros w w1 evs r H; cbn [upsert_names] in H.
  - simplify_eq. split_and!; try done. intros ids Hids. by simplify_eq.
  - destruct (String.eqb name "") eqn:E; [by eapply IH|].
    destruct (FindPageByTitle w name) as [w0 [e|[id|]]] eqn:F;
      destruct (FindPageByTitle_frame _ _ _ _ F) as (Fp & Fn & Fg & Fx).
    + simplify_eq. split_and!; try done. intros _. by eexists [_], _.
    + destruct (upsert_names w0 names) as [[w2 evs2] r2] eqn:E2.
      simplify_eq. destruct (IH _ _ _ _ E2) as (Hp & Hu & Hr & Hn).
      split_and!.
      * by rewrite Hp.
      * done.
      * intros ids Hids. destruct r2 as [ids2|]; simplify_eq/=.
        destruct (Hr ids2 eq_refl) as [-> _]. done.
      * intros Hnone. destruct r2; simplify_eq/=.
        destruct (Hn eq_refl) as (pre & m & ->). eexists (_ :: _ :: pre), m. done.
    + destruct (CreatePage w0 name) as [w1' [e|id]] eqn:C;
        destruct (CreatePage_frame _ _ _ _ C) as (Cg & Ce & Ci).
      * simplify_eq. split_and!; try done; [by rewrite Cg|]. intros _. by eexists [_; _], _.
      * destruct (upsert_names w1' names) as [[w2 evs2] r2] eqn:E2.
        simplify_eq. destruct (IH _ _ _ _ E2) as (Hp & Hu & Hr & Hn).
        split_and!.
        -- by rewrite Hp, Cg.
        -- done.
        -- intros ids Hids. destruct r2 as [ids2|]; simplify_eq/=.
           destruct (Hr ids2 eq_refl) as [-> _]. done.
        -- intros Hnone. destruct r2; simplify_eq/=.
           destruct (Hn eq_refl) as (pre & m & ->). eexists (_ :: _ :: _ :: pre), m. done.
Qed.

(** C5: for a source page carrying the property, when the loop over the
    names fails the run aborts before any update; when it completes with
    no person id, no update is issued and nothing changes; otherwise
    exactly one update is issued, and its request sets the page's
    ["People"] relation to exactly the collected ids, in the order the
    names were resolved, whatever the relation held before: on success
    that is the page's relation and no other page is touched, on an API
    error the run aborts with the update's error and no page changes. *)
Theorem upsert_write_back (w : World) (srcField : string) (pg : Page)
    (prop : PropertyValue) (w' : World) (out : list UEvent) (aborted : bool)
    (w1 : World) (evs : list UEvent) (r : option (list string)) :
  pg_Properties pg !! srcField = Some prop ->
  upsert_names w (extractPersons (ExtractString prop)) = (w1, evs, r) ->
  process_person_page w srcField pg = (w', out, aborted) ->
  (r = None -> aborted = true /\ update_count out = O /\ w_pages w' = w_pages w) /\
  (forall ids, r = Some ids ->
     resolved_ids out = ids /\
     (ids = [] -> aborted = false /\ update_count out = O /\ w' = w) /\
     (ids <> [] ->
        update_count out = 1%nat /\
        ((aborted = false /\
          last out = Some (UUpdate (pg_ID pg) [("People", relation_pv ids)] None) /\
          (w_pages w' !! pg_ID pg ≫= lookup "People") = Some (relation_pv ids) /\
          (forall pid, pid <> pg_ID pg -> w_pages w' !! pid = w_pages w !! pid)) \/
         (exists e, aborted = true /\
          In (UUpdate (pg_ID pg) [("People", relation_pv ids)] (Some e)) out /\
          last out = Some (UFatal (ErrWrapped ("failed to update page " +:+ pg_ID pg +:+
                                               ": " +:+ e))) /\
          w_pages w' = w_pages w)))).
Proof.
  intros Hprop Hup Hproc. unfold process_person_page in Hproc.
  rewrite Hprop, Hup in Hproc.
  destruct (upsert_names_spec _ _ _ _ _ Hup) as (Hp & Hu & Hr & Hn).
  destruct r as [ids|]; [split; [discriminate|]|].
  2: { simplify_eq. split; [|discriminate]. intros _. split_and!; [done| |done].
       simpl. done. }
  intros ids' [= <-]. destruct (Hr ids eq_refl) as [Hres Hnil].
  destruct ids as [|id ids2].
  { simplify_eq. destruct (Hnil eq_refl) as [-> ->]. split; [done|].
    split; [done|]. by intros. }
  destruct (UpdatePage w1 (pg_ID pg) [("People", relation_pv (id :: ids2))]) as [w2 res] eqn:U.
  destruct (UpdatePage_frame _ _ _ _ _ U) as (Up & Ue & Uo).
  assert (Hres' : forall tl, resolved_ids (UPrintln (ExtractString (default (empty_pv "")
            (pg_Properties pg !! "Name"))) :: evs ++ tl) = id :: ids2 ++ resolved_ids tl).
  { intros tl. simpl. rewrite resolved_ids_app, Hres. done. }
  destruct res as [e|]; simplify_eq.
  - split; [rewrite Hres'; simpl; by rewrite app_nil_r|].
    split; [done|]. intros _. split.
    { simpl. rewrite update_count_app, Hu. done. }
    right. exists e. split_and!.
    + done.
    + simpl. right. apply in_or_app. right. by left.
    + rewrite app_comm_cons, last_app. done.
    + rewrite Ue by done. done.
  - split; [rewrite Hres'; simpl; by rewrite app_nil_r|].
    split; [done|]. intros _. split.
    { simpl. rewrite update_count_app, Hu. done. }
    left. split_and!.
    + done.
    + rewrite app_comm_cons, last_app. done.
    + rewrite (Uo eq_refl), lookup_insert_eq. simpl. by rewrite lookup_insert_eq.
    + intros pid Hpid. rewrite (Uo eq_refl), lookup_insert_ne; [|done]. by rewrite Hp.
Qed.

Definition who_pv (who : string) : PropertyValue :=
  {| pv_ID := ""; pv_Type := "rich_text"; pv_Title := [];
     pv_RichText := [mkRichText who];
     pv_Select := None; pv_MultiSelect := []; pv_Status := None;
     pv_People := []; pv_Email := None; pv_URL := None;
     pv_PhoneNumber := None; pv_Number := None; pv_Checkbox := None;
     pv_Date := None; pv_Relation := []; pv_Formula := None;
     pv_Rollup := None |}.

Definition chronicle_page : Page := mkPage "page" "src-1" {[ "Who" := who_pv "Alice, Bob" ]}.

(** One known person, "Alice"; the source page already relates to "old";
    every API call succeeds. *)
Definition world0 : World :=
  mkWorld [("person-alice", "Alice")] 0
    {[ "src-1" := {[ "People" := relation_pv ["old"] ]} ]} [].

Lemma upsert_write_back_witness :
  (w_pages (process_person_page world0 "Who" chronicle_page).1.1 !! "src-1"
     ≫= lookup "People") = Some (relation_pv ["person-alice"; "person-0"]).
Proof.
  destruct (upsert_write_back world0 "Who" chronicle_page (who_pv "Alice, Bob")
              (process_person_page world0 "Who" chronicle_page).1.1
              (process_person_page world0 "Who" chronicle_page).1.2
              (process_person_page world0 "Who" chronicle_page).2
              (upsert_names world0 ["Alice"; "Bob"]).1.1
              (upsert_names world0 ["Alice"; "Bob"]).1.2
              (Some ["person-alice"; "person-0"])
              ltac:(reflexivity) ltac:(vm_compute; reflexivity)
              ltac:(vm_compute; reflexivity))
    as [_ Hs].
  destruct (Hs _ eq_refl) as (_ & _ & Hne).
  destruct (Hne ltac:(discriminate)) as [_ [(_ & _ & Hrel & _)|(e & Hab & _)]].
  - exact Hrel.
  - exfalso. vm_compute in Hab. discriminate.
Defined.

(** ** [TrimSpace] *)

Lemma str_app_cons (a : Ascii.ascii) (s t : string) :
  String a s +:+ t = String a (s +:+ t).
Proof. reflexivity. Qed.

Lemma str_app_nil (t : string) : EmptyString +:+ t = t.
Proof. reflexivity. Qed.

Lemma str_app_assoc (a b c : string) : (a +:+ b) +:+ c = a +:+ (b +:+ c).
Proof.
  induction a as [|x a IH]; [done|]. rewrite !str_app_cons. by rewrite IH.
Qed.

Lemma substring_prefix (p s : string) :
  String.substring 0 (String.length p) (p +:+ s) = p.
Proof.
  induction p as [|a p IH]; [by destruct s|]. rewrite str_app_cons. simpl. by rewrite IH.
Qed.
Lemma substring_skip (p s : string) (m : nat) :
  String.substring (String.length p) m (p +:+ s) = String.substring 0 m s.
Proof. induction p as [|a p IH]; [done|]. rewrite str_app_cons. simpl. apply IH. Qed.
Lemma substring_all (s : string) : String.substring 0 (String.length s) s = s.
Proof. pose proof (substring_prefix s EmptyString) as H. by rewrite append_empty_r in H. Qed.
Lemma length_str_app (a b : string) :
  String.length (a +:+ b) = (String.length a + String.length b)%nat.
Proof. induction a as [|x a IH]; [done|]. rewrite str_app_cons. simpl. by rewrite IH. Qed.

Lemma substring_split (s : string) (n : nat) :
  (n <= String.length s)%nat ->
  s = String.substring 0 n s +:+ String.substring n (String.length s - n) s.
Proof.
  revert n. induction s as [|a s IH]; intros [|n] Hn; simpl in *.
  - done.
  - lia.
  - by rewrite substring_all.
  - rewrite str_app_cons. f_equal. apply IH. lia.
Qed.

Lemma length_substring0 (s : string) (n : nat) :
  (n <= String.length s)%nat -> String.length (String.substring 0 n s) = n.
Proof.
  revert n. induction s as [|a s IH]; intros [|n] Hn; simpl in *; try lia.
  f_equal. apply IH. lia.
Qed.

Lemma substring0_app (p q : string) (n : nat) :
  (n <= String.length p)%nat ->
  String.substring 0 n (p +:+ q) = String.substring 0 n p.
Proof.
  revert n. induction p as [|a p IH]; intros [|n] Hn; rewrite ?str_app_cons; simpl in *; try lia; try done; try by destruct q.
  f_equal. apply IH. lia.
Qed.

Lemma substring0_substring0 (s : string) (n m : nat) :
  (n <= m)%nat -> (m <= String.length s)%nat ->
  String.substring 0 n (String.substring 0 m s) = String.substring 0 n s.
Proof.
  intros. pose proof (substring_split s m ltac:(assumption)) as E. rewrite E at 2. rewrite substring0_app; [done|].
  rewrite length_substring0; lia.
Qed.

Lemma get_app_len (p : string) (c : Ascii.ascii) (q : string) :
  String.get (String.length p) (p +:+ String c q) = Some c.
Proof. induction p as [|a p IH]; [done|]. rewrite str_app_cons. simpl. apply IH. Qed.

(* byte facts *)
Lemma byte_val_range (c : Ascii.ascii) : 0 <= byte_val c <= 255.
Proof.
  unfold byte_val. pose proof (Ascii.nat_ascii_bounded c). lia.
Qed.


Lemma first_cases (c : Ascii.ascii) :
  (byte_val c < RuneSelf /\ first (byte_val c) = as_) \/
  (RuneSelf <= byte_val c /\ first (byte_val c) = xx) \/
  ((as_ <=? first (byte_val c)) = false /\ lead_ok (byte_val c) = true).
Proof.
  destruct c as [[] [] [] [] [] [] [] []];
    first [left; split; reflexivity | right; left; split; [discriminate|reflexivity]
          | right; right; split; reflexivity].
Qed.

Lemma first_ascii (c : Ascii.ascii) :
  byte_val c < RuneSelf -> first (byte_val c) = as_.
Proof.
  unfold first. intros H. pose proof (byte_val_range c).
  destruct (Z.ltb_spec (byte_val c) 0x80); [done|]. unfold RuneSelf in H. lia.
Qed.

Lemma first_invalid_lo (c : Ascii.ascii) :
  byte_val c < 0xC2 -> RuneSelf <= byte_val c -> first (byte_val c) = xx.
Proof.
  unfold first, RuneSelf. intros H1 H2.
  destruct (Z.ltb_spec (byte_val c) 0x80); [lia|].
  destruct (Z.ltb_spec (byte_val c) 0xC2); [done|lia].
Qed.

Ltac zb := repeat match goal with
  | H : (_ <? _) = true |- _ => apply Z.ltb_lt in H
  | H : (_ <? _) = false |- _ => apply Z.ltb_ge in H
  | H : (_ <=? _) = true |- _ => apply Z.leb_le in H
  | H : (_ <=? _) = false |- _ => apply Z.leb_gt in H
  | H : (_ =? _) = true |- _ => apply Z.eqb_eq in H
  | H : (_ =? _) = false |- _ => apply Z.eqb_neq in H
  | H : (_ || _) = false |- _ => apply orb_false_iff in H as [? ?]
  | H : (_ || _) = true |- _ => apply orb_true_iff in H as [?|?]
  | H : (_ && _) = true |- _ => apply andb_true_iff in H as [? ?]
  | H : (_ && _) = false |- _ => apply andb_false_iff in H as [?|?]
  | H : negb _ = true |- _ => apply negb_true_iff in H
  | H : negb _ = false |- _ => apply negb_false_iff in H
  end.



Lemma decode_cons_ascii (c : Ascii.ascii) (s : string) :
  byte_val c < RuneSelf -> DecodeRuneInString (String c s) = (byte_val c, 1%nat).
Proof.
  intros H. unfold DecodeRuneInString. cbn beta iota zeta.
  rewrite (first_ascii c H). cbn -[byte_val Z.lor Z.land].
  rewrite Z.land_m1_r, Z.land_0_r, Z.lor_0_r. done.
Qed.

Lemma decode_cons_xx (c : Ascii.ascii) (s : string) :
  first (byte_val c) = xx -> DecodeRuneInString (String c s) = (RuneError, 1%nat).
Proof.
  intros H. unfold DecodeRuneInString. cbn beta iota zeta.
  rewrite H. cbn -[byte_val Z.lor Z.land].
  rewrite Z.land_0_r, Z.land_m1_r, Z.lor_0_l. done.
Qed.

Lemma decode_cons_cont (c : Ascii.ascii) (s : string) :
  cont_byte (byte_val c) = true -> DecodeRuneInString (String c s) = (RuneError, 1%nat).
Proof.
  unfold cont_byte. intros H. zb. apply decode_cons_xx, first_invalid_lo; unfold RuneSelf; lia.
Qed.

Ltac lead_facts HL := unfold lead_ok, locb, hicb in HL; cbv zeta in HL; zb.

Lemma decode_width (s : string) :
  s <> EmptyString -> (1 <= snd (DecodeRuneInString s) <= String.length s)%nat.
Proof.
  destruct s as [|c0 r0]; [done|]. intros _.
  destruct (first_cases c0) as [[H1 H2]|[[H1 H2]|[H1 H2]]].
  - rewrite decode_cons_ascii by done. simpl. lia.
  - rewrite decode_cons_xx by done. simpl. lia.
  - unfold DecodeRuneInString. cbn beta iota zeta.
    rewrite H1. lead_facts H2. repeat case_match; simplify_eq; simpl in *; zb; lia.
Qed.

Lemma decode_app_long (p q : string) (r : Z) (w : nat) :
  DecodeRuneInString p = (r, w) -> (2 <= w)%nat ->
  DecodeRuneInString (p +:+ q) = (r, w).
Proof.
  intros Hd Hw. destruct p as [|c0 p1]; [simpl in Hd; simplify_eq; lia|].
  rewrite str_app_cons.
  destruct (first_cases c0) as [[H1 H2]|[[H1 H2]|[H1 H2]]].
  - rewrite decode_cons_ascii in Hd by done. simplify_eq. lia.
  - rewrite decode_cons_xx in Hd by done. simplify_eq. lia.
  - revert Hd. unfold DecodeRuneInString. cbn beta iota zeta. rewrite H1. lead_facts H2.
    destruct p1 as [|c1 [|c2 [|c3 p4]]]; rewrite ?str_app_cons, ?str_app_nil;
      repeat case_match; intros; simplify_eq; simpl in *;
      rewrite ?length_str_app in *; zb; try lia; done.
Qed.

Lemma decode_w1 (c : Ascii.ascii) (s : string) (r : Z) :
  DecodeRuneInString (String c s) = (r, 1%nat) ->
  r = RuneError \/ (byte_val c < RuneSelf /\ r = byte_val c).
Proof.
  destruct (first_cases c) as [[H1 H2]|[[H1 H2]|[H1 H2]]].
  - rewrite decode_cons_ascii by done. intros; simplify_eq. by right.
  - rewrite decode_cons_xx by done. intros; simplify_eq. by left.
  - unfold DecodeRuneInString. cbn beta iota zeta. rewrite H1.
    repeat case_match; intros; simplify_eq; auto.
Qed.

Lemma decode_prefix (p q : string) :
  p <> EmptyString ->
  DecodeRuneInString p = DecodeRuneInString (p +:+ q) \/
  DecodeRuneInString p = (RuneError, 1%nat).
Proof.
  intros Hp. pose proof (decode_width p Hp) as Hw.
  destruct (DecodeRuneInString p) as [r w] eqn:E. simpl in Hw.
  destruct (decide (2 <= w)%nat).
  - left. symmetry. by apply decode_app_long.
  - assert (w = 1%nat) as -> by lia.
    destruct p as [|c s]; [done|].
    destruct (decode_w1 c s r E) as [->|[Hc ->]]; [by right|].
    left. rewrite str_app_cons, decode_cons_ascii by done. done.
Qed.

Lemma decode_narrow (c : Ascii.ascii) (s : string) :
  RuneSelf <= byte_val c -> boundary s = true ->
  snd (DecodeRuneInString (String c s)) = 1%nat.
Proof.
  intros Hc Hb.
  destruct (first_cases c) as [[H1 H2]|[[H1 H2]|[H1 H2]]].
  - lia.
  - by rewrite decode_cons_xx.
  - unfold DecodeRuneInString. cbn beta iota zeta. rewrite H1. lead_facts H2.
    destruct s as [|c1 s1]; simpl in Hb; unfold cont_byte in Hb; zb;
      repeat case_match; simplify_eq; simpl in *; zb; try lia; done.
Qed.

Lemma decode_space_head (c : Ascii.ascii) (s : string) :
  IsSpace (fst (DecodeRuneInString (String c s))) = true -> cont_byte (byte_val c) = false.
Proof.
  intros H. destruct (cont_byte (byte_val c)) eqn:E; [|done].
  rewrite decode_cons_cont in H by done. vm_compute in H. discriminate.
Qed.

Lemma scan_start_le (fuel : nat) (s : string) (start lim : Z) :
  scan_start fuel s start lim <= start.
Proof.
  revert start. induction fuel as [|k IH]; intros start; simpl; [lia|].
  repeat case_match; try lia. specialize (IH (start - 1)). lia.
Qed.

Lemma get_lt (s : string) (i : nat) :
  (i < String.length s)%nat -> exists c, String.get i s = Some c.
Proof.
  revert i. induction s as [|a s IH]; intros [|i] Hi; simpl in *; try lia; eauto.
  apply IH. lia.
Qed.

Lemma substring_one (s : string) (i : nat) (c : Ascii.ascii) :
  String.get i s = Some c -> String.substring i 1 s = String c EmptyString.
Proof.
  revert i. induction s as [|a s IH]; intros [|i] H; simpl in *; try done.
  - simplify_eq. by destruct s.
  - by apply IH.
Qed.

Lemma byte_at_get (s : string) (i : nat) (c : Ascii.ascii) :
  String.get i s = Some c -> byte_at s (Z.of_nat i) = byte_val c.
Proof. intros H. unfold byte_at. by rewrite Nat2Z.id, H. Qed.

Lemma DL_spec (p : string) :
  p <> EmptyString ->
  let '(r, size) := DecodeLastRuneInString p in
  (1 <= size <= String.length p)%nat /\
  snd (DecodeRuneInString (String.substring (String.length p - size) size p)) = size /\
  (IsSpace r = true ->
   boundary (String.substring (String.length p - size) size p) = true).
Proof.
  intros Hp. set (n := String.length p).
  assert (Hn : (1 <= n)%nat) by (destruct p; [done|]; simpl in n; unfold n; lia).
  destruct (get_lt p (n - 1)) as [c Hc]; [lia|].
  assert (Hsub : String.substring (n - 1) 1 p = String c EmptyString)
    by (by apply substring_one).
  unfold DecodeLastRuneInString. fold n.
  destruct (Z.eqb_spec (Z.of_nat n) 0) as [E|_]; [lia|].
  replace (Z.of_nat n - 1) with (Z.of_nat (n - 1)) by lia.
  rewrite (byte_at_get p (n - 1) c Hc).
  destruct (Z.ltb_spec (byte_val c) RuneSelf) as [Ha|Ha].
  - rewrite Hsub, decode_cons_ascii by done. simpl. repeat split; try lia.
    intros _. unfold cont_byte. unfold RuneSelf in Ha.
    destruct (Z.leb_spec 0x80 (byte_val c)); [lia|done].
  - set (st := Z.max (scan_start 4 p (Z.of_nat (n - 1) - 1) (Z.max (Z.of_nat n - UTFMax) 0)) 0).
    pose proof (scan_start_le 4 p (Z.of_nat (n - 1) - 1) (Z.max (Z.of_nat n - UTFMax) 0)) as Hsc.
    assert (Hst : 0 <= st <= Z.of_nat n - 1) by (unfold st; lia).
    destruct (DecodeRuneInString (slice p st (Z.of_nat n))) as [r' size'] eqn:D.
    destruct (Z.eqb_spec (st + Z.of_nat size') (Z.of_nat n)) as [Heq|Hne]; simpl.
    + assert (Ek : (n - size' = Z.to_nat st)%nat) by lia.
      assert (Em : Z.to_nat (Z.of_nat n - st) = size') by lia.
      unfold slice in D. rewrite Em in D. rewrite Ek, D. simpl.
      destruct (String.substring (Z.to_nat st) size' p) as [|c0 t] eqn:Es.
      * simpl in D. simplify_eq. lia.
      * split; [lia|]. split; [done|]. intros Hsp.
        simpl. rewrite (decode_space_head c0 t); [done|]. by rewrite D.
    + rewrite Hsub. split; [lia|]. split.
      * apply decode_narrow; [lia|done].
      * intros H. vm_compute in H. discriminate.
Qed.

Lemma DL_ascii_last (q : string) (c : Ascii.ascii) :
  byte_val c < RuneSelf ->
  DecodeLastRuneInString (q +:+ String c EmptyString) = (byte_val c, 1%nat).
Proof.
  intros Hc. unfold DecodeLastRuneInString.
  rewrite length_str_app. simpl String.length.
  destruct (Z.eqb_spec (Z.of_nat (String.length q + 1)) 0); [lia|].
  replace (Z.of_nat (String.length q + 1) - 1) with (Z.of_nat (String.length q)) by lia.
  rewrite (byte_at_get _ _ c (get_app_len q c EmptyString)).
  destruct (Z.ltb_spec (byte_val c) RuneSelf); [done|lia].
Qed.


Lemma length_substring (s : string) (i m : nat) :
  (i + m <= String.length s)%nat -> String.length (String.substring i m s) = m.
Proof.
  revert i m. induction s as [|a s IH]; intros i m Hi; destruct i, m; simpl in *; try lia.
  - f_equal. apply length_substring0. lia.
  - apply IH. lia.
  - apply IH. lia.
Qed.

Lemma lastIndexFunc_go_step (k : nat) (f : Z -> bool) (t : bool) (p : string) :
  p <> EmptyString ->
  lastIndexFunc_go (S k) f t p =
  let '(r, size) := DecodeLastRuneInString p in
  if Bool.eqb (f r) t then Z.of_nat (String.length p - size)
  else lastIndexFunc_go k f t (String.substring 0 (String.length p - size) p).
Proof. by destruct p. Qed.

Lemma rtrim_end_step (k : nat) (p : string) :
  p <> EmptyString ->
  rtrim_end (S k) p =
  let '(r, size) := DecodeLastRuneInString p in
  if IsSpace r then rtrim_end k (String.substring 0 (String.length p - size) p)
  else String.length p.
Proof. by destruct p. Qed.

Lemma boundary_app (r q : string) :
  r <> EmptyString -> boundary (r +:+ q) = boundary r.
Proof. by destruct r. Qed.

(** The pieces of [p] cut at its last rune, as [DecodeLastRuneInString] sees them. *)
Lemma last_rune_split (p : string) (size : nat) :
  (1 <= size <= String.length p)%nat ->
  p = String.substring 0 (String.length p - size) p +:+
      String.substring (String.length p - size) size p /\
  String.length (String.substring 0 (String.length p - size) p) = (String.length p - size)%nat /\
  String.length (String.substring (String.length p - size) size p) = size.
Proof.
  intros H. split; [|split].
  - pose proof (substring_split p (String.length p - size) ltac:(lia)) as E.
    by replace (String.length p - (String.length p - size))%nat with size in E by lia.
  - apply length_substring0. lia.
  - apply length_substring. lia.
Qed.

Lemma LI_end (fuel : nat) (p q : string) :
  (String.length p <= fuel)%nat -> boundary q = true ->
  (let x := p +:+ q in
   let i := lastIndexFunc_go fuel IsSpace false p in
   if (0 <=? i) && (RuneSelf <=? byte_at x i)
   then i + Z.of_nat (snd (DecodeRuneInString (slice x i (Z.of_nat (String.length x)))))
   else i + 1) = Z.of_nat (rtrim_end fuel p).
Proof.
  revert p q. induction fuel as [|k IH]; intros p q Hl Hb.
  - destruct p; simpl in *; [done|lia].
  - destruct (decide (p = EmptyString)) as [->|Hp]; [done|].
    rewrite lastIndexFunc_go_step, rtrim_end_step by done.
    pose proof (DL_spec p Hp) as Hd.
    destruct (DecodeLastRuneInString p) as [r size] eqn:E.
    destruct Hd as (Hsz & Hw & Hbd).
    destruct (last_rune_split p size Hsz) as (Hsplit & Hl1 & Hlb).
    set (p1 := String.substring 0 (String.length p - size) p) in *.
    set (rb := String.substring (String.length p - size) size p) in *.
    clearbody p1 rb.
    assert (Hx : p +:+ q = p1 +:+ (rb +:+ q)) by (rewrite Hsplit at 1; apply str_app_assoc).
    assert (Hrb : rb <> EmptyString) by (intros ->; simpl in Hlb; lia).
    destruct (IsSpace r) eqn:Hs; simpl.
    + rewrite Hx. apply IH; [lia|]. rewrite boundary_app by done. by apply Hbd.
    + cbv zeta. rewrite Hx. destruct rb as [|cb tb]; [done|].
      rewrite str_app_cons, <- Hl1, (byte_at_get _ _ cb (get_app_len p1 cb (tb +:+ q))).
      unfold slice. rewrite Nat2Z.id, length_str_app.
      replace (Z.to_nat (Z.of_nat (String.length p1 + String.length (String cb (tb +:+ q))) -
                         Z.of_nat (String.length p1)))
        with (String.length (String cb (tb +:+ q))) by lia.
      rewrite substring_skip, substring_all.
      destruct (Z.ltb_spec (byte_val cb) RuneSelf) as [Ha|Ha].
      * rewrite decode_cons_ascii in Hw by done. simpl in Hw.
        destruct (Z.leb_spec 0 (Z.of_nat (String.length p1))); [|lia].
        destruct (Z.leb_spec RuneSelf (byte_val cb)); [lia|]. simpl. lia.
      * destruct (Z.leb_spec 0 (Z.of_nat (String.length p1))); [|lia].
        destruct (Z.leb_spec RuneSelf (byte_val cb)); [|lia]. cbn [andb].
        destruct (decide (2 <= size)%nat).
        -- destruct (DecodeRuneInString (String cb tb)) as [r2 w2] eqn:D2.
           simpl in Hw. subst w2.
           rewrite <- str_app_cons, (decode_app_long _ _ _ _ D2) by done. simpl. lia.
        -- assert (size = 1%nat) as Hs1 by lia. rewrite Hs1 in Hlb, Hl1.
           destruct tb; simpl in Hlb; [|lia].
           rewrite str_app_nil, decode_narrow by done. lia.
Qed.

Lemma TrimRightFunc_end (x : string) :
  TrimRightFunc x IsSpace = String.substring 0 (rtrim_end (String.length x) x) x.
Proof.
  unfold TrimRightFunc, lastIndexFunc.
  pose proof (LI_end (String.length x) x EmptyString (le_n _) eq_refl) as H.
  cbv zeta in H. rewrite append_empty_r in H. rewrite H, Nat2Z.id. done.
Qed.

Lemma rtrim_end_le (fuel : nat) (p : string) : (rtrim_end fuel p <= String.length p)%nat.
Proof.
  revert p. induction fuel as [|k IH]; intros p; [simpl; lia|].
  destruct (decide (p = EmptyString)) as [->|Hp]; [simpl; lia|].
  rewrite rtrim_end_step by done.
  pose proof (DL_spec p Hp) as Hd.
  destruct (DecodeLastRuneInString p) as [r size] eqn:E. destruct Hd as (Hsz & _ & _).
  destruct (IsSpace r); [|lia].
  specialize (IH (String.substring 0 (String.length p - size) p)).
  rewrite length_substring0 in IH by lia. lia.
Qed.

Lemma substring0_empty (s : string) : String.substring 0 0 s = EmptyString.
Proof. by destruct s. Qed.

Lemma rtrim_end_fixed (fuel : nat) (p : string) :
  let y := String.substring 0 (rtrim_end fuel p) p in
  rtrim_end (String.length y) y = String.length y.
Proof.
  revert p. induction fuel as [|k IH]; intros p; cbv zeta.
  - simpl. by rewrite substring0_empty.
  - destruct (decide (p = EmptyString)) as [->|Hp]; [done|].
    rewrite rtrim_end_step by done.
    pose proof (DL_spec p Hp) as Hd.
    destruct (DecodeLastRuneInString p) as [r size] eqn:E. destruct Hd as (Hsz & _ & _).
    destruct (IsSpace r) eqn:Hs.
    + set (p1 := String.substring 0 (String.length p - size) p).
      pose proof (rtrim_end_le k p1) as Hle.
      assert (Hl1 : String.length p1 = (String.length p - size)%nat)
        by (apply length_substring0; lia).
      assert (Hy : String.substring 0 (rtrim_end k p1) p = String.substring 0 (rtrim_end k p1) p1).
      { unfold p1 in *. rewrite substring0_substring0; [done| |]; lia. }
      rewrite Hy. apply IH.
    + rewrite substring_all.
      destruct p as [|c t]; [done|]. simpl String.length at 1.
      rewrite rtrim_end_step by done. rewrite E, Hs. done.
Qed.

Lemma TrimRightFunc_idem (x : string) :
  TrimRightFunc (TrimRightFunc x IsSpace) IsSpace = TrimRightFunc x IsSpace.
Proof.
  rewrite (TrimRightFunc_end x). rewrite TrimRightFunc_end.
  rewrite (rtrim_end_fixed (String.length x) x). apply substring_all.
Qed.

Lemma TrimLeft_go_step (k : nat) (f : Z -> bool) (s : string) :
  s <> EmptyString ->
  TrimLeft_go (S k) f s =
  let '(r, w) := DecodeRuneInString s in
  if f r then TrimLeft_go k f (String.substring w (String.length s - w) s) else s.
Proof. by destruct s. Qed.

Lemma TrimLeft_go_head (fuel : nat) (s : string) :
  (String.length s <= fuel)%nat ->
  let t := TrimLeft_go fuel IsSpace s in
  t = EmptyString \/ IsSpace (fst (DecodeRuneInString t)) = false.
Proof.
  revert s. induction fuel as [|k IH]; intros s Hl; cbv zeta.
  - destruct s; simpl in *; [by left|lia].
  - destruct (decide (s = EmptyString)) as [->|Hs]; [by left|].
    rewrite TrimLeft_go_step by done.
    pose proof (decode_width s Hs) as Hw.
    destruct (DecodeRuneInString s) as [r w] eqn:E. simpl in Hw.
    destruct (IsSpace r) eqn:Hr.
    + apply IH. rewrite length_substring by lia. lia.
    + right. by rewrite E.
Qed.

Lemma TrimLeftFunc_fixed (v : string) :
  v = EmptyString \/ IsSpace (fst (DecodeRuneInString v)) = false ->
  TrimLeftFunc v IsSpace = v.
Proof.
  intros [->|H]; [done|].
  destruct (decide (v = EmptyString)) as [->|Hv]; [done|].
  unfold TrimLeftFunc. destruct v as [|c t]; [done|]. simpl String.length.
  rewrite TrimLeft_go_step by done.
  destruct (DecodeRuneInString (String c t)) as [r w]. simpl in H. by rewrite H.
Qed.

Lemma TrimFunc_idem (s : string) :
  TrimFunc (TrimFunc s IsSpace) IsSpace = TrimFunc s IsSpace.
Proof.
  unfold TrimFunc.
  pose proof (TrimLeft_go_head (String.length s) s (le_n _)) as Hu.
  change (TrimLeft_go (String.length s) IsSpace s) with (TrimLeftFunc s IsSpace) in Hu.
  set (u := TrimLeftFunc s IsSpace) in *. clearbody u.
  rewrite (TrimLeftFunc_fixed (TrimRightFunc u IsSpace)); [apply TrimRightFunc_idem|].
  rewrite TrimRightFunc_end.
  set (E := rtrim_end (String.length u) u).
  pose proof (rtrim_end_le (String.length u) u) as HE. fold E in HE.
  destruct (decide (String.substring 0 E u = EmptyString)) as [He|Hv]; [by left|right].
  destruct Hu as [->|Hu]; [by rewrite substring0_empty in Hv|].
  pose proof (substring_split u E HE) as Hs.
  destruct (decode_prefix (String.substring 0 E u) (String.substring E (String.length u - E) u) Hv)
    as [D|D]; rewrite D; [by rewrite <- Hs|reflexivity].
Qed.

Lemma IsSpace_ascii (c : Ascii.ascii) :
  byte_val c < RuneSelf -> IsSpace (byte_val c) = asciiSpace (byte_val c).
Proof.
  destruct c as [[] [] [] [] [] [] [] []]; intros H;
    first [reflexivity | exfalso; vm_compute in H; discriminate].
Qed.

Lemma TrimLeftFunc_ascii_space (c : Ascii.ascii) (s : string) :
  byte_val c < RuneSelf -> asciiSpace (byte_val c) = true ->
  TrimLeftFunc (String c s) IsSpace = TrimLeftFunc s IsSpace.
Proof.
  intros Ha Hs. unfold TrimLeftFunc. simpl String.length.
  rewrite TrimLeft_go_step, decode_cons_ascii by done. cbn beta iota.
  rewrite IsSpace_ascii, Hs by done.
  simpl String.substring. by rewrite Nat.sub_0_r, substring_all.
Qed.

Lemma TrimLeftFunc_ascii_nonspace (c : Ascii.ascii) (s : string) :
  byte_val c < RuneSelf -> asciiSpace (byte_val c) = false ->
  TrimLeftFunc (String c s) IsSpace = String c s.
Proof.
  intros Ha Hs. apply TrimLeftFunc_fixed. right.
  rewrite decode_cons_ascii by done. simpl. by rewrite IsSpace_ascii.
Qed.

Lemma TrimRightFunc_empty : TrimRightFunc EmptyString IsSpace = EmptyString.
Proof. reflexivity. Qed.

Lemma TrimSpace_stop_spec (fuel : nat) (p : string) :
  (String.length p <= fuel)%nat -> TrimSpace_stop fuel p = TrimRightFunc p IsSpace.
Proof.
  revert p. induction fuel as [|k IH]; intros p Hl.
  - destruct p; simpl in *; [done|lia].
  - destruct (decide (p = EmptyString)) as [->|Hp]; [done|].
    set (n := String.length p) in *.
    assert (Hn : (1 <= n)%nat) by (destruct p; [done|]; unfold n; simpl; lia).
    destruct (get_lt p (n - 1)) as [c Hc]; [lia|].
    set (p' := String.substring 0 (n - 1) p).
    assert (Hl' : String.length p' = (n - 1)%nat) by (apply length_substring0; lia).
    assert (Hsp : p = p' +:+ String c EmptyString).
    { pose proof (substring_split p (n - 1) ltac:(lia)) as E. fold n in E.
      replace (n - (n - 1))%nat with 1%nat in E by lia.
      by rewrite (substring_one p (n - 1) c Hc) in E. }
    cbn [TrimSpace_stop]. fold n. rewrite Hc.
    destruct (Z.leb_spec RuneSelf (byte_val c)) as [Hb|Hb]; [done|].
    assert (Hr : rtrim_end (S (n - 1)) p =
                 if asciiSpace (byte_val c) then rtrim_end (n - 1) p' else n).
    { rewrite rtrim_end_step by done.
      destruct (DecodeLastRuneInString p) as [r size] eqn:E.
      rewrite Hsp, DL_ascii_last in E by done. injection E as <- <-.
      rewrite IsSpace_ascii by done. done. }
    replace (S (n - 1)) with n in Hr by lia.
    rewrite (TrimRightFunc_end p). fold n. rewrite Hr.
    destruct (asciiSpace (byte_val c)).
    + fold p'. rewrite IH by lia. rewrite TrimRightFunc_end, Hl'.
      unfold p'. rewrite substring0_substring0; [done| |lia].
      pose proof (rtrim_end_le (n - 1) p') as Hle. rewrite Hl' in Hle. done.
    + apply eq_sym, substring_all.
Qed.

Lemma TrimSpace_TrimFunc (s : string) : TrimSpace s = TrimFunc s IsSpace.
Proof.
  induction s as [|c s IH]; [reflexivity|].
  unfold TrimSpace. cbn [TrimSpace_start].
  destruct (Z.leb_spec RuneSelf (byte_val c)) as [Hb|Hb]; [done|].
  destruct (asciiSpace (byte_val c)) eqn:Hs.
  - unfold TrimSpace in IH. rewrite IH. unfold TrimFunc.
    by rewrite TrimLeftFunc_ascii_space.
  - rewrite TrimSpace_stop_spec by lia. unfold TrimFunc.
    by rewrite TrimLeftFunc_ascii_nonspace.
Qed.

Lemma TrimSpace_idem (s : string) : TrimSpace (TrimSpace s) = TrimSpace s.
Proof. rewrite !TrimSpace_TrimFunc. apply TrimFunc_idem. Qed.

Lemma TrimLeft_go_suffix (fuel : nat) (f : Z -> bool) (s : string) :
  exists pre, s = pre +:+ TrimLeft_go fuel f s.
Proof.
  revert s. induction fuel as [|k IH]; intros s; [by exists EmptyString|].
  destruct (decide (s = EmptyString)) as [->|Hs]; [by exists EmptyString|].
  rewrite TrimLeft_go_step by done.
  pose proof (decode_width s Hs) as Hw.
  destruct (DecodeRuneInString s) as [r w]. simpl in Hw.
  destruct (f r); [|by exists EmptyString].
  destruct (IH (String.substring w (String.length s - w) s)) as [pre Hpre].
  exists (String.substring 0 w s +:+ pre). rewrite str_app_assoc, <- Hpre.
  apply substring_split. lia.
Qed.

(** [TrimSpace] only cuts at both ends. *)
Lemma TrimSpace_infix (s : string) : exists pre suf, s = pre +:+ TrimSpace s +:+ suf.
Proof.
  rewrite TrimSpace_TrimFunc. unfold TrimFunc, TrimLeftFunc.
  destruct (TrimLeft_go_suffix (String.length s) IsSpace s) as [pre Hpre].
  set (u := TrimLeft_go (String.length s) IsSpace s) in *.
  rewrite TrimRightFunc_end.
  exists pre, (String.substring (rtrim_end (String.length u) u)
            (String.length u - rtrim_end (String.length u) u) u).
  rewrite <- substring_split; [done|]. apply rtrim_end_le.
Qed.

(** ** Further properties of [ExtractStrings] *)

Lemma multi_select_names_filter (os : list SelectOption) :
  multi_select_names os = map so_Name (filter (fun o => so_Name o <> EmptyString) os).
Proof.
  induction os as [|o os IH]; simpl; [done|].
  rewrite filter_cons. destruct (String.eqb_spec (so_Name o) "") as [E|E].
  - rewrite decide_False; [done|]. by intros [].
  - rewrite decide_True; [|done]. simpl. by rewrite IH.
Qed.

(** A [multi_select] value yields the names of its options in their order,
    leaving out exactly the options with an empty name. *)
Theorem ExtractStrings_multi_select (p : PropertyValue) :
  pv_Type p = "multi_select" ->
  ExtractStrings p =
    map so_Name (filter (fun o => so_Name o <> EmptyString) (pv_MultiSelect p)).
Proof.
  destruct p; simpl; intros ->; simpl.
  rewrite <- multi_select_names_filter. by case_match.
Qed.

Lemma ExtractStrings_multi_select_witness :
  ExtractStrings
    {| pv_ID := ""; pv_Type := "multi_select"; pv_Title := []; pv_RichText := [];
       pv_Select := None;
       pv_MultiSelect := [mkSelectOption "A"; mkSelectOption ""; mkSelectOption "B"];
       pv_Status := None; pv_People := []; pv_Email := None; pv_URL := None;
       pv_PhoneNumber := None; pv_Number := None; pv_Checkbox := None;
       pv_Date := None; pv_Relation := []; pv_Formula := None;
       pv_Rollup := None |} = ["A"; "B"].
Proof. rewrite ExtractStrings_multi_select; reflexivity. Defined.


(** A [people] value yields, for each user in order, the name when it is
    non-empty, else the id when that is non-empty; a user with neither is
    left out. *)
Theorem ExtractStrings_people (p : PropertyValue) :
  pv_Type p = "people" ->
  ExtractStrings p = omap user_display (pv_People p).
Proof.
  destruct p as [id ty title rich sel ms st ppl]; simpl; intros ->; simpl.
  assert (E : people_names ppl = omap user_display ppl).
  { induction ppl as [|u us IH]; simpl; [done|]. unfold user_display.
    destruct (String.eqb (u_Name u) ""), (String.eqb (u_ID u) ""); simpl;
      by rewrite IH. }
  rewrite <- E. by case_match.
Qed.

Lemma ExtractStrings_people_witness :
  ExtractStrings
    {| pv_ID := ""; pv_Type := "people"; pv_Title := []; pv_RichText := [];
       pv_Select := None; pv_MultiSelect := []; pv_Status := None;
       pv_People := [mkUser "u1" "Ann"; mkUser "u2" ""; mkUser "" ""];
       pv_Email := None; pv_URL := None;
       pv_PhoneNumber := None; pv_Number := None; pv_Checkbox := None;
       pv_Date := None; pv_Relation := []; pv_Formula := None;
       pv_Rollup := None |} = ["Ann"; "u2"].
Proof. rewrite ExtractStrings_people; reflexivity. Defined.

(** A [relation] value yields the ids of its references in order, leaving
    out exactly the empty ones. *)
Theorem ExtractStrings_relation (p : PropertyValue) :
  pv_Type p = "relation" ->
  ExtractStrings p =
    map rr_ID (filter (fun r => rr_ID r <> EmptyString) (pv_Relation p)).
Proof.
  destruct p as [id ty title rich sel ms st ppl em url ph num cb dt rel]; simpl;
    intros ->; simpl.
  assert (E : relation_ids rel =
              map rr_ID (filter (fun r => rr_ID r <> EmptyString) rel)).
  { induction rel as [|r rs IH]; simpl; [done|].
    rewrite filter_cons. destruct (String.eqb_spec (rr_ID r) "") as [Er|Er].
    - rewrite decide_False; [done|]. by intros [].
    - rewrite decide_True; [|done]. simpl. by rewrite IH. }
  rewrite <- E. by case_match.
Qed.

Lemma ExtractStrings_relation_witness :
  ExtractStrings
    {| pv_ID := ""; pv_Type := "relation"; pv_Title := []; pv_RichText := [];
       pv_Select := None; pv_MultiSelect := []; pv_Status := None;
       pv_People := []; pv_Email := None; pv_URL := None;
       pv_PhoneNumber := None; pv_Number := None; pv_Checkbox := None;
       pv_Date := None; pv_Relation := [mkRelationRef "r1"; mkRelationRef ""; mkRelationRef "r2"];
       pv_Formula := None; pv_Rollup := None |} = ["r1"; "r2"].
Proof. rewrite ExtractStrings_relation; reflexivity. Defined.

(** Unrecognised discriminators are not errors: an unknown outer type, an
    unknown formula type and an unknown rollup type all yield nothing,
    whatever the payload fields hold. *)
Theorem ExtractStrings_unknown_types :
  (forall p : PropertyValue, pv_Type p ∉ known_types -> ExtractStrings p = []) /\
  (forall (p : PropertyValue) (f : FormulaValue),
     pv_Type p = "formula" -> pv_Formula p = Some f ->
     fv_Type f ∉ ["string"; "number"; "boolean"; "date"] -> ExtractStrings p = []) /\
  (forall (p : PropertyValue) (r : RollupValue),
     pv_Type p = "rollup" -> pv_Rollup p = Some r ->
     rv_Type r ∉ ["number"; "date"; "array"] -> ExtractStrings p = []).
Proof.
  split; [|split].
  - intros [id ty] Hty; simpl in *. unfold known_types in Hty.
    repeat match goal with
    | |- context [if String.eqb ty ?k then _ else _] =>
        destruct (String.eqb_spec ty k); [subst; set_solver|]
    end; done.
  - intros [] [fty] Hty Hf Hfty; simpl in *; subst; simpl.
    unfold formula_strings; simpl.
    repeat match goal with
    | |- context [if String.eqb fty ?k then _ else _] =>
        destruct (String.eqb_spec fty k); [subst; set_solver|]
    end; done.
  - intros [] [rty] Hty Hr Hrty; simpl in *; subst; simpl.
    repeat match goal with
    | |- context [if String.eqb rty ?k then _ else _] =>
        destruct (String.eqb_spec rty k); [subst; set_solver|]
    end; done.
Qed.

Lemma ExtractStrings_unknown_types_witness :
  ExtractStrings {| pv_ID := ""; pv_Type := "files"; pv_Title := []; pv_RichText := [];
       pv_Select := Some (mkSelectOption "A"); pv_MultiSelect := []; pv_Status := None;
       pv_People := []; pv_Email := None; pv_URL := None;
       pv_PhoneNumber := None; pv_Number := None; pv_Checkbox := None;
       pv_Date := None; pv_Relation := []; pv_Formula := None;
       pv_Rollup := None |} = [].
Proof.
  apply (proj1 ExtractStrings_unknown_types). unfold known_types. simpl.
  apply (bool_decide_eq_false_1 _). vm_compute. reflexivity.
Defined.

(** A [title] or [rich_text] value yields at most one string; that
    string is non-empty, has no Unicode space at either end, and is a
    piece of the joined plain texts; nothing is yielded exactly when the
    joined plain texts are blank. *)
Theorem ExtractStrings_rich_text (p : PropertyValue) (rts : list RichText) :
  (pv_Type p = "title" /\ pv_Title p = rts) \/
  (pv_Type p = "rich_text" /\ pv_RichText p = rts) ->
  (length (ExtractStrings p) <= 1)%nat /\
  Forall (fun s => s <> EmptyString /\ TrimSpace s = s /\
                   exists pre suf, concat_plain rts = pre +:+ s +:+ suf)
    (ExtractStrings p) /\
  (ExtractStrings p = [] <-> TrimSpace (concat_plain rts) = EmptyString).
Proof.
  intros H.
  assert (E : ExtractStrings p =
    (if String.eqb (TrimSpace (concat_plain rts)) "" then []
     else [TrimSpace (concat_plain rts)])).
  { destruct p, H as [[Ht Hr]|[Ht Hr]]; simpl in *; subst; reflexivity. }
  rewrite E. destruct (String.eqb_spec (TrimSpace (concat_plain rts)) "") as [Hb|Hb].
  - split_and!; [simpl; lia|constructor|done].
  - split_and!; [simpl; lia| |done].
    constructor; [|constructor]. split_and!; [done|apply TrimSpace_idem|].
    apply TrimSpace_infix.
Qed.

Lemma ExtractStrings_rich_text_witness :
  ExtractStrings (who_pv "  Alice, Bob ") = ["Alice, Bob"] /\
  Forall (fun s => s <> EmptyString /\ TrimSpace s = s /\
                   exists pre suf, concat_plain [mkRichText "  Alice, Bob "] = pre +:+ s +:+ suf)
    (ExtractStrings (who_pv "  Alice, Bob ")).
Proof.
  destruct (ExtractStrings_rich_text (who_pv "  Alice, Bob ")
              [mkRichText "  Alice, Bob "] (or_intror (conj eq_refl eq_refl)))
    as (_ & Hall & _).
  split; [vm_compute; reflexivity|exact Hall].
Defined.

(** ** Further properties of the basic query loop *)

Lemma printed_print_values (vs : list string) :
  Forall (fun s => s <> EmptyString /\ TrimSpace s = s) (printed (print_values vs)).
Proof.
  induction vs as [|v vs IH]; simpl; [constructor|].
  destruct (String.eqb_spec (TrimSpace v) "") as [E|E]; [done|].
  simpl. constructor; [|done]. split; [done | apply TrimSpace_idem].
Qed.

Lemma printed_process_pages (field : string) (pages : list Page) :
  Forall (fun s => s <> EmptyString /\ TrimSpace s = s)
    (printed (process_pages field pages).1).
Proof.
  induction pages as [|pg pgs IH]; simpl; [constructor|].
  destruct (pg_Properties pg !! field); simpl; [|constructor].
  destruct (process_pages field pgs) as [evs ab]. simpl in *.
  rewrite printed_app. apply Forall_app. split; [apply printed_print_values | done].
Qed.

(** Every line the basic variant prints is non-empty and has no space at
    either end, whatever the responses hold. *)
Theorem main_loop_printed_trimmed (field : string) (cursor : option string)
    (replies : list DoResult) :
  Forall (fun s => s <> EmptyString /\ TrimSpace s = s)
    (printed (main_loop field cursor replies)).
Proof.
  revert cursor. induction replies as [|[m|resp] rest IH]; intros cursor;
    simpl; try by repeat constructor.
  pose proof (printed_process_pages field (qr_Results resp)) as Hp.
  destruct (process_pages field (qr_Results resp)) as [evs ab]. simpl in *.
  rewrite printed_app. apply Forall_app. split; [done|].
  destruct ab; [constructor|]. destruct (stop_cond resp); [constructor | apply IH].
Qed.


Lemma query_ok_pages (field : string) (pages : list Page) :
  Forall (query_ok field) (process_pages field pages).1.
Proof.
  induction pages as [|pg pgs IH]; simpl; [constructor|].
  destruct (pg_Properties pg !! field); simpl; [|by repeat constructor].
  destruct (process_pages field pgs) as [evs ab]. simpl in *.
  apply Forall_app. split; [|done].
  induction (ExtractStrings p) as [|v vs IHv]; simpl; [constructor|].
  case_match; [done|]. by constructor.
Qed.

(** The query requests of the loop: each is a POST to the data source's
    query endpoint, narrowed to the configured property, with page size
    100; the first carries no cursor and a later one carries the previous
    response's cursor, which is never empty. *)
Theorem main_loop_queries (field : string) (replies : list DoResult) :
  head (main_loop field None replies) = Some (query_event field None) /\
  Forall (query_ok field) (main_loop field None replies).
Proof.
  split; [by destruct replies|].
  assert (G : forall cursor,
    (cursor = None \/ exists c, c <> EmptyString /\ cursor = Some c) ->
    Forall (query_ok field) (main_loop field cursor replies)).
  { induction replies as [|[m|resp] rest IH]; intros cursor Hc; simpl;
      (constructor; [simpl; destruct Hc as [->|(c & Hc & ->)]; eauto|]);
      try by repeat constructor.
    pose proof (query_ok_pages field (qr_Results resp)) as Hq.
    destruct (process_pages field (qr_Results resp)) as [evs ab]. simpl in *.
    apply Forall_app. split; [done|].
    destruct ab; [constructor|].
    unfold stop_cond. destruct (qr_HasMore resp); simpl; [|constructor].
    destruct (qr_NextCursor resp) as [c|] eqn:Ec; [|constructor].
    destruct (String.eqb_spec c ""); [constructor|].
    apply IH. right. eauto. }
  apply G. by left.
Qed.


(** The basic variant sends no query without a token (from [-token], or
    else from [NOTION_TOKEN]) and a field name that are non-blank; it then
    stops with the matching error alone. *)
Theorem main_basic_preconditions (tok env fld : string) (replies : list DoResult) :
  (TrimSpace tok = EmptyString -> TrimSpace env = EmptyString ->
     main_basic tok env fld replies = [EFatal ErrMissingToken]) /\
  ((TrimSpace tok <> EmptyString \/ TrimSpace env <> EmptyString) ->
   TrimSpace fld = EmptyString ->
     main_basic tok env fld replies = [EFatal ErrEmptyField]) /\
  (query_count (main_basic tok env fld replies) <> O ->
     (TrimSpace tok <> EmptyString \/ TrimSpace env <> EmptyString) /\
     TrimSpace fld <> EmptyString).
Proof.
  unfold main_basic.
  destruct (String.eqb_spec (TrimSpace tok) "") as [Ht|Ht];
  [destruct (String.eqb_spec (TrimSpace env) "") as [He|He]|];
  rewrite ?Ht, ?He; simpl; rewrite ?He;
  (destruct (String.eqb_spec (TrimSpace fld) "") as [Hf|Hf]);
  split_and!; intros; simpl in *; try done; try (exfalso; tauto);
  try (destruct (String.eqb_spec (TrimSpace tok) ""); done); eauto.
Qed.

Lemma main_basic_preconditions_witness :
  main_basic "  " "" "Who" [] = [EFatal ErrMissingToken] /\
  main_basic "" " tok " " " [] = [EFatal ErrEmptyField].
Proof.
  split.
  - apply (proj1 (main_basic_preconditions "  " "" "Who" [])); reflexivity.
  - apply (proj1 (proj2 (main_basic_preconditions "" " tok " " " [])));
      [right; discriminate | reflexivity].
Defined.

(** ** Further properties of [Client.Do] *)

(** [Do] succeeds exactly when the body (if any) marshals, the request is
    built, the transport answers with a 2xx status and, when an output is
    given, the body decodes into it; with no output a 2xx response succeeds
    whatever its body, and otherwise the result is the decoded value. *)
Theorem Do_success {A : Type} (method path : string) (body : option (string + string))
    (newreq_err : option string) (outcome : HttpOutcome)
    (out : option (string -> string + A)) (v : option A) :
  Do method path body newreq_err outcome out = inr v <->
  (body = None \/ exists b, body = Some (inr b)) /\ newreq_err = None /\
  exists status respBody,
    outcome = HttpResponse status respBody /\ 200 <= status < 300 /\
    match out with
    | None => v = None
    | Some unmarshal => exists x, unmarshal respBody = inr x /\ v = Some x
    end.
Proof.
  unfold Do. split.
  - intros H.
    destruct body as [[e|b]|]; [discriminate| |];
    (destruct newreq_err; [discriminate|]);
    (destruct outcome as [e|status respBody]; [discriminate|]);
    (destruct ((status <? 200) || (300 <=? status))%bool eqn:Es; [discriminate|]);
    apply orb_false_iff in Es as [E1 E2];
    apply Z.ltb_ge in E1; apply Z.leb_gt in E2;
    (split; [eauto|]); (split; [done|]); exists status, respBody;
    (split; [done|]); (split; [lia|]);
    destruct out as [unmarshal|]; simplify_eq; [|done|..|done];
    destruct (unmarshal respBody); simplify_eq; eauto.
  - intros (Hb & -> & status & respBody & -> & Hs & Hout).
    assert (E : ((status <? 200) || (300 <=? status))%bool = false).
    { apply orb_false_iff. split; [apply Z.ltb_ge | apply Z.leb_gt]; lia. }
    destruct Hb as [->|[b ->]]; rewrite E;
      (destruct out as [unmarshal|]; [destruct Hout as (x & -> & ->)|subst]; done).
Qed.

Lemma Do_success_witness :
  @Do unit "PATCH" "/pages/p1" (Some (inr "{}")) None (HttpResponse 204 "") None =
    inr None.
Proof.
  apply Do_success. split; [right; eauto|]. split; [done|].
  exists 204, "". split; [done|]. split; [lia | done].
Defined.

(** ** [FormatFloat] never uses exponent notation *)


Lemma str_forallb_app (f : Ascii.ascii -> bool) (a b : string) :
  str_forallb f (a +:+ b) = (str_forallb f a && str_forallb f b)%bool.
Proof.
  induction a as [|c a IH]; [done|]. rewrite str_app_cons. simpl.
  by rewrite IH, andb_assoc.
Qed.

Lemma count_char_app (c : Ascii.ascii) (a b : string) :
  count_char c (a +:+ b) = (count_char c a + count_char c b)%nat.
Proof.
  induction a as [|x a IH]; [done|]. rewrite str_app_cons. simpl.
  by destruct (Ascii.eqb c x); rewrite IH.
Qed.

Lemma all_digits_count_dot (s : string) : all_digits s = true -> count_char "." s = O.
Proof.
  induction s as [|c s IH]; [done|]. unfold all_digits; cbn [str_forallb count_char].
  intros [Hc Hs]%andb_prop. destruct (Ascii.eqb_spec "." c) as [<-|_].
  - discriminate.
  - by apply IH.
Qed.

Lemma pretty_N_go_digits (x : N) (s : string) :
  all_digits s = true -> all_digits (pretty_N_go x s) = true.
Proof.
  revert s. induction (N.lt_wf_0 x) as [x _ IH]; intros s Hs.
  destruct (decide (x = 0)%N) as [->|Hx]; [by rewrite pretty_N_go_0|].
  rewrite pretty_N_go_step by lia. apply IH; [apply N.div_lt; lia|].
  unfold all_digits in *; simpl. rewrite Hs, andb_true_r.
  unfold pretty_N_char. by repeat case_match.
Qed.

Lemma pretty_N_digits (x : N) : all_digits (pretty x) = true.
Proof.
  unfold pretty, pretty_N. case_match; [done|]. by apply pretty_N_go_digits.
Qed.

Lemma substring_digits (d : string) (n m : nat) :
  all_digits d = true -> all_digits (String.substring n m d) = true.
Proof.
  revert n m. induction d as [|c d IH]; intros n m Hd; simpl.
  - by destruct n, m.
  - unfold all_digits in *; simpl in Hd. apply andb_prop in Hd as [Hc Hd].
    destruct n, m; simpl; rewrite ?Hc; try done; by apply IH.
Qed.

Lemma zeros_digits (n : nat) : all_digits (zeros n) = true.
Proof. induction n; [done|]. unfold all_digits in *. simpl. by rewrite IHn. Qed.

Lemma digit_at_digit (d : string) (j : Z) :
  all_digits d = true -> is_digit (digit_at d j) = true.
Proof.
  intros Hd. unfold digit_at. case_match; [|done].
  destruct (String.get (Z.to_nat j) d) as [c|] eqn:Eg; [|done].
  revert Hd Eg. generalize (Z.to_nat j). clear.
  induction d as [|c' d IH]; intros n Hd Eg; [by destruct n|].
  unfold all_digits in Hd; simpl in Hd. apply andb_prop in Hd as [Hc Hd].
  destruct n; simpl in Eg; simplify_eq; [done|]. by apply (IH n).
Qed.

Lemma fmtF_frac_digits (d : string) (j : Z) (n : nat) :
  all_digits d = true -> all_digits (fmtF_frac d j n) = true.
Proof.
  revert j. induction n as [|n IH]; intros j Hd; [done|].
  unfold all_digits in *; simpl. rewrite digit_at_digit by done. by apply IH.
Qed.

Lemma fmtF_int_digits (d : string) (dp : Z) :
  all_digits d = true -> all_digits (fmtF_int d dp) = true.
Proof.
  intros Hd. unfold fmtF_int. case_match; [|done].
  unfold all_digits. rewrite str_forallb_app.
  apply andb_true_intro. split; [by apply substring_digits | apply zeros_digits].
Qed.

(** The digits of the float in [FormatFloat]. *)
Lemma float_digits_digits (digits : N) :
  all_digits (if (digits =? 0)%N then EmptyString else pretty digits) = true.
Proof. case_match; [done | apply pretty_N_digits]. Qed.

(** A finite float is printed as an optional minus sign (exactly when it is
    negative) followed by decimal digits, a first digit, and a single
    decimal point exactly when the decimal exponent is negative: never in
    exponent notation. *)
Theorem FormatFloat_plain_decimal (neg : bool) (digits : N) (exp : Z) :
  exists (c : Ascii.ascii) (body : string),
    FormatFloat (F_Fin neg digits exp) =
      (if neg then "-" else "") +:+ String c body /\
    is_digit c = true /\
    str_forallb (fun x => is_digit x || Ascii.eqb x ".")%bool body = true /\
    count_char "." body = (if (exp <? 0)%Z then 1%nat else 0%nat).
Proof.
  simpl. set (d := if (digits =? 0)%N then EmptyString else pretty digits).
  assert (Hd : all_digits d = true) by apply float_digits_digits.
  set (dp := Z.of_nat (String.length d) + exp).
  pose proof (fmtF_int_nonempty d dp) as Hne.
  pose proof (fmtF_int_digits d dp Hd) as Hid.
  destruct (fmtF_int d dp) as [|c rest] eqn:Ei; [done|].
  unfold all_digits in Hid; simpl in Hid. apply andb_prop in Hid as [Hc Hrest].
  set (frac := if 0 <? Z.max (Z.of_nat (String.length d) - dp) 0
               then "." +:+ fmtF_frac d dp (Z.to_nat (Z.max (Z.of_nat (String.length d) - dp) 0))
               else "").
  exists c, (rest +:+ frac). split.
  { unfold fmtF. rewrite Ei. reflexivity. }
  split; [done|].
  assert (Hprec : (0 <? Z.max (Z.of_nat (String.length d) - dp) 0) = (exp <? 0)).
  { unfold dp. destruct (Z.ltb_spec 0 (Z.max (Z.of_nat (String.length d) -
      (Z.of_nat (String.length d) + exp)) 0)), (Z.ltb_spec exp 0); lia. }
  unfold frac. rewrite Hprec. split.
  - rewrite str_forallb_app. apply andb_true_intro. split.
    + clear -Hrest. induction rest as [|x rest IH]; [done|].
      simpl in *. apply andb_prop in Hrest as [Hx Hr]. by rewrite Hx, IH.
    + destruct (exp <? 0); [|done]. rewrite str_forallb_app.
      apply andb_true_intro. split; [reflexivity|].
      pose proof (fmtF_frac_digits d dp
        (Z.to_nat (Z.max (Z.of_nat (String.length d) - dp) 0)) Hd) as Hf.
      revert Hf. generalize (fmtF_frac d dp
        (Z.to_nat (Z.max (Z.of_nat (String.length d) - dp) 0))).
      intros s. unfold all_digits. induction s as [|x s IH]; [done|].
      simpl. intros [Hx Hs]%andb_prop. by rewrite Hx, IH.
  - rewrite count_char_app, (all_digits_count_dot rest Hrest).
    destruct (exp <? 0); [|done]. rewrite count_char_app.
    by rewrite (all_digits_count_dot _ (fmtF_frac_digits _ _ _ Hd)).
Qed.

(** ** [strings.Split] and [extractPersons] *)


Lemma contains_cons (sep : string) (a : Ascii.ascii) (s : string) :
  contains sep (String a s) = (String.prefix sep (String a s) || contains sep s)%bool.
Proof. reflexivity. Qed.

Lemma index_none_sep (s : string) :
  contains comma_sep s = false -> String.index 0 comma_sep s = None.
Proof.
  induction s as [|a s IH]; [done|].
  rewrite contains_cons. intros [Hp Hs]%orb_false_iff. cbn [String.index].
  rewrite Hp, IH by done. done.
Qed.

Lemma index_app_sep (p r : string) :
  contains comma_sep p = false ->
  String.index 0 comma_sep (p +:+ comma_sep +:+ r) = Some (String.length p).
Proof.
  induction p as [|a p IH]; [intros _; destruct r; reflexivity|].
  rewrite contains_cons. intros [Hp Hs]%orb_false_iff.
  rewrite str_app_cons. cbn [String.index].
  assert (Hq : String.prefix comma_sep (String a (p +:+ comma_sep +:+ r)) = false).
  { unfold comma_sep in *. destruct p as [|b p'].
    - rewrite str_app_nil, !str_app_cons. cbn [String.prefix].
      destruct (Ascii.ascii_dec "," a); [|done].
      by destruct (Ascii.ascii_dec " " ",").
    - rewrite !str_app_cons. cbn [String.prefix] in Hp |- *.
      destruct (Ascii.ascii_dec "," a); [|done].
      destruct (Ascii.ascii_dec " " b); [|done]. by destruct p'. }
  rewrite Hq, (IH Hs). done.
Qed.

Lemma split_fuel_join (names : list string) (n : string) :
  Forall (fun m => contains comma_sep m = false) (n :: names) ->
  forall fuel, (length names <= fuel)%nat ->
  split_fuel fuel (String.concat comma_sep (n :: names)) comma_sep = n :: names.
Proof.
  revert n. induction names as [|n' names' IH]; intros n Hall fuel Hf.
  - inversion Hall as [|? ? Hn _]; subst. cbn [String.concat].
    destruct fuel as [|fuel]; [done|]. cbn [split_fuel]. by rewrite index_none_sep.
  - inversion Hall as [|? ? Hn Hrest]; subst.
    destruct fuel as [|fuel]; [simpl in Hf; lia|].
    change (String.concat comma_sep (n :: n' :: names'))
      with (n +:+ comma_sep +:+ String.concat comma_sep (n' :: names')).
    cbn [split_fuel]. rewrite index_app_sep by done.
    set (r := String.concat comma_sep (n' :: names')).
    rewrite substring_prefix.
    assert (Hlen : (String.length (n +:+ comma_sep +:+ r) -
                    (String.length n + String.length comma_sep))%nat = String.length r).
    { rewrite !length_str_app. lia. }
    rewrite Hlen.
    replace (String.length n + String.length comma_sep)%nat
      with (String.length (n +:+ comma_sep)) by (rewrite length_str_app; lia).
    rewrite <- str_app_assoc, substring_skip, substring_all.
    f_equal. apply IH; [done|]. simpl in Hf; lia.
Qed.

Lemma length_join (names : list string) :
  (2 * (length names - 1) <= String.length (String.concat comma_sep names))%nat.
Proof.
  induction names as [|n [|n' names'] IH]; simpl; [lia | lia|].
  change (String.concat comma_sep (n :: n' :: names'))
    with (n +:+ comma_sep +:+ String.concat comma_sep (n' :: names')) in *.
  rewrite !length_str_app. simpl in *. lia.
Qed.

(** Splitting on [", "] undoes joining with [", "]: a non-empty list of
    names none of which contains [", "] comes back as it was. *)
Theorem Split_join (names : list string) :
  names <> [] ->
  Forall (fun n => contains comma_sep n = false) names ->
  Split (String.concat comma_sep names) comma_sep = names.
Proof.
  intros Hne Hall. unfold Split.
  destruct names as [|n names']; [done|].
  apply split_fuel_join; [done|].
  pose proof (length_join (n :: names')) as Hl. simpl in Hl |- *. lia.
Qed.

Lemma Split_join_witness :
  Split (String.concat comma_sep ["Alice"; "Bob,Carol"; ""; "Dan"]) comma_sep =
    ["Alice"; "Bob,Carol"; ""; "Dan"].
Proof.
  apply Split_join; [discriminate|]. repeat constructor.
Defined.

(** [extractPersons] yields at least one token, each with no space at
    either end; and on names joined with [", "] that neither contain
    [", "] nor carry surrounding whitespace it gives the names back. *)
Theorem extractPersons_tokens (who : string) :
  extractPersons who <> [] /\
  Forall (fun s => TrimSpace s = s) (extractPersons who) /\
  (forall names, names <> [] ->
     Forall (fun n => contains comma_sep n = false /\ TrimSpace n = n) names ->
     extractPersons (String.concat comma_sep names) = names).
Proof.
  split_and!.
  - unfold extractPersons, Split. destruct (String.length who); simpl.
    + by case_match.
    + by case_match.
  - unfold extractPersons. apply Forall_forall. intros s Hs.
    apply list_elem_of_fmap in Hs as (t & -> & _). apply TrimSpace_idem.
  - intros names Hne Hall. unfold extractPersons.
    rewrite Split_join; [| done | by eapply Forall_impl; [exact Hall|]; intros ? []].
    induction Hall as [|n ns [_ Hn] _ IH]; [done|]. simpl. rewrite Hn.
    destruct ns; [done|]. f_equal. by apply IH.
Qed.

Lemma extractPersons_tokens_witness :
  extractPersons "Alice, Bob, Carol" = ["Alice"; "Bob"; "Carol"].
Proof.
  apply (proj2 (proj2 (extractPersons_tokens ""))
           ["Alice"; "Bob"; "Carol"]); [discriminate|].
  repeat constructor.
Defined.

(** ** The names loop of the upsert variant *)


Lemma searched_titles_app (a b : list UEvent) :
  searched_titles (a ++ b) = searched_titles a ++ searched_titles b.
Proof.
  induction a as [|e a IH]; [done|]. simpl. repeat case_match; simpl; by rewrite ?IH.
Qed.

Lemma created_titles_app (a b : list UEvent) :
  created_titles (a ++ b) = created_titles a ++ created_titles b.
Proof.
  induction a as [|e a IH]; [done|]. simpl. repeat case_match; simpl; by rewrite ?IH.
Qed.

Lemma find_title_app_some (l ext : list (string * string)) (t id : string) :
  find_title l t = Some id -> find_title (l ++ ext) t = Some id.
Proof.
  induction l as [|[i t'] l IH]; [done|]. simpl.
  destruct (String.eqb t' t); [done|]. apply IH.
Qed.

Lemma find_title_app_none (l : list (string * string)) (t id : string) :
  find_title l t = None -> find_title (l ++ [(id, t)]) t = Some id.
Proof.
  induction l as [|[i t'] l IH]; simpl.
  - by rewrite String.eqb_refl.
  - destruct (String.eqb t' t); [done|]. apply IH.
Qed.

(** After the loop the People database only grew at its end; when the
    loop completed, every non-skipped name is found there under the id
    the loop collected for it. *)
Lemma upsert_names_found (names : list string) :
  forall (w w1 : World) (evs : list UEvent) (r : option (list string)),
    upsert_names w names = (w1, evs, r) ->
    (exists ext, w_people w1 = w_people w ++ ext) /\
    (forall ids, r = Some ids ->
       Forall2 (fun n id => find_title (w_people w1) n = Some id)
         (nonempty_names names) ids).
Proof.
  unfold nonempty_names.
  induction names as [|name names IH]; intros w w1 evs r H; cbn [upsert_names] in H.
  - simplify_eq. split; [exists []; by rewrite app_nil_r|]. intros ids [= <-]. constructor.
  - simpl. destruct (String.eqb name "") eqn:E; [by eapply IH|]. simpl.
    destruct (FindPageByTitle w name) as [w0 [e|[id|]]] eqn:F;
      destruct (FindPageByTitle_frame _ _ _ _ F) as (Fp & Fn & Fg & Fx).
    + simplify_eq. split; [exists []; by rewrite app_nil_r|discriminate].
    + destruct (upsert_names w0 names) as [[w2 evs2] r2] eqn:E2.
      simplify_eq. destruct (IH _ _ _ _ E2) as [[ext Hext] Hall].
      split; [exists ext; by rewrite Hext, Fp|].
      intros ids Hids. destruct r2 as [ids2|]; simplify_eq/=.
      constructor; [|by apply Hall].
      rewrite Hext, Fp. apply find_title_app_some. symmetry. by apply Fx.
    + destruct (CreatePage w0 name) as [w1' [e|id]] eqn:C;
        destruct (CreatePage_frame _ _ _ _ C) as (Cg & Ce & Ci).
      * simplify_eq. split; [exists []; by rewrite app_nil_r, (Ce e eq_refl)|discriminate].
      * destruct (upsert_names w1' names) as [[w2 evs2] r2] eqn:E2.
        simplify_eq. destruct (IH _ _ _ _ E2) as [[ext Hext] Hall].
        assert (Hw' : w_people w1' = w_people w ++ [(id, name)])
          by by rewrite (Ci id eq_refl), Fp.
        split; [exists ((id, name) :: ext); by rewrite Hext, Hw', <- app_assoc|].
        intros ids Hids. destruct r2 as [ids2|]; simplify_eq/=.
        constructor; [|by apply Hall].
        rewrite Hext, Hw'. apply find_title_app_some. apply find_title_app_none.
        symmetry. by apply Fx.
Qed.

(** When every non-skipped name is already in the People database, the
    loop creates nothing and changes no page, person or counter, whatever
    the API calls answer; it collects the ids found, unless a call fails;
    and when no call fails it collects them. *)
Lemma upsert_names_all_found (names : list string) :
  forall (w : World) (ids : list string),
    Forall2 (fun n id => find_title (w_people w) n = Some id)
      (nonempty_names names) ids ->
    forall w1 evs r, upsert_names w names = (w1, evs, r) ->
    created_titles evs = [] /\ w_people w1 = w_people w /\ w_next w1 = w_next w /\
    w_pages w1 = w_pages w /\ (r = None \/ r = Some ids) /\
    (Forall (fun o => o = None) (w_errors w) -> r = Some ids).
Proof.
  unfold nonempty_names.
  induction names as [|name names IH]; intros w ids Hall w1 evs r H;
    simpl in Hall; cbn [upsert_names] in H.
  - inversion Hall; subst. simplify_eq. split_and!; auto.
  - destruct (String.eqb name "") eqn:E; simpl in Hall; [by eapply IH|].
    inversion Hall as [|? id ? ids' Hf Hrest]; subst.
    destruct (FindPageByTitle w name) as [w0 [e|[id'|]]] eqn:F;
      destruct (FindPageByTitle_frame _ _ _ _ F) as (Fp & Fn & Fg & Fx).
    + simplify_eq. split_and!; auto.
      intros Hok. by destruct (FindPageByTitle_ok _ _ _ _ Hok F).
    + rewrite Hf in Fx. specialize (Fx _ eq_refl). simplify_eq.
      rewrite <- Fp in Hrest.
      destruct (upsert_names w0 names) as [[w2 evs2] r2] eqn:E2. simplify_eq.
      destruct (IH w0 ids' Hrest _ _ _ E2) as (Hc & Hp & Hn & Hg & Hr & Hok).
      split_and!.
      * done.
      * by rewrite Hp, Fp.
      * by rewrite Hn, Fn.
      * by rewrite Hg, Fg.
      * destruct Hr as [-> | ->]; [by left|by right].
      * intros Hok0. destruct (FindPageByTitle_ok _ _ _ _ Hok0 F) as [_ Hok1].
        by rewrite (Hok Hok1).
    + rewrite Hf in Fx. by specialize (Fx _ eq_refl).
Qed.

(** The loop searches the non-empty names in order: a prefix of them when
    it aborts, all of them when it completes. *)
Lemma upsert_names_searched (names : list string) :
  forall (w w1 : World) (evs : list UEvent) (r : option (list string)),
    upsert_names w names = (w1, evs, r) ->
    searched_titles evs `prefix_of` nonempty_names names /\
    (forall ids, r = Some ids -> searched_titles evs = nonempty_names names).
Proof.
  unfold nonempty_names.
  induction names as [|name names IH]; intros w w1 evs r H; cbn [upsert_names] in H.
  - simplify_eq. split; [apply prefix_nil|done].
  - simpl. destruct (String.eqb name "") eqn:E; [by eapply IH|]. simpl.
    destruct (FindPageByTitle w name) as [w0 [e|[id|]]] eqn:F.
    + simplify_eq. split; [apply prefix_cons, prefix_nil|discriminate].
    + destruct (upsert_names w0 names) as [[w2 evs2] r2] eqn:E2.
      simplify_eq. destruct (IH _ _ _ _ E2) as [Hpre Heq]. simpl.
      split; [by apply prefix_cons|].
      intros ids Hids. destruct r2 as [ids2|]; simplify_eq/=. by rewrite (Heq ids2).
    + destruct (CreatePage w0 name) as [w1' [e|id]] eqn:C.
      * simplify_eq. split; [apply prefix_cons, prefix_nil|discriminate].
      * destruct (upsert_names w1' names) as [[w2 evs2] r2] eqn:E2.
        simplify_eq. destruct (IH _ _ _ _ E2) as [Hpre Heq]. simpl.
        split; [by apply prefix_cons|].
        intros ids Hids. destruct r2 as [ids2|]; simplify_eq/=. by rewrite (Heq ids2).
Qed.

Lemma upsert_names_people (names : list string) :
  forall (w w1 : World) (evs : list UEvent) (r : option (list string)),
    upsert_names w names = (w1, evs, r) ->
    map snd (w_people w1) = map snd (w_people w) ++ created_titles evs.
Proof.
  induction names as [|name names IH]; intros w w1 evs r H; cbn [upsert_names] in H.
  - simplify_eq. simpl. by rewrite app_nil_r.
  - destruct (String.eqb name "") eqn:E; [by eapply IH|].
    destruct (FindPageByTitle w name) as [w0 [e|[id|]]] eqn:F;
      destruct (FindPageByTitle_frame _ _ _ _ F) as (Fp & Fn & Fg & Fx).
    + simplify_eq. simpl. by rewrite Fp, app_nil_r.
    + destruct (upsert_names w0 names) as [[w2 evs2] r2] eqn:E2.
      simplify_eq. simpl. rewrite (IH _ _ _ _ E2). by rewrite Fp.
    + destruct (CreatePage w0 name) as [w1' [e|id]] eqn:C;
        destruct (CreatePage_frame _ _ _ _ C) as (Cg & Ce & Ci).
      * simplify_eq. simpl. by rewrite (Ce e eq_refl), Fp, app_nil_r.
      * destruct (upsert_names w1' names) as [[w2 evs2] r2] eqn:E2.
        simplify_eq. simpl. rewrite (IH _ _ _ _ E2), (Ci id eq_refl), Fp.
        by rewrite map_app, <- app_assoc.
Qed.

Lemma upsert_names_created (names : list string) :
  forall (w w1 : World) (evs : list UEvent) (r : option (list string)),
    upsert_names w names = (w1, evs, r) ->
    Forall (fun t => find_title (w_people w) t = None) (created_titles evs) /\
    NoDup (created_titles evs).
Proof.
  induction names as [|name names IH]; intros w w1 evs r H; cbn [upsert_names] in H.
  - simplify_eq. simpl. split; constructor.
  - destruct (String.eqb name "") eqn:E; [by eapply IH|].
    destruct (FindPageByTitle w name) as [w0 [e|[id|]]] eqn:F;
      destruct (FindPageByTitle_frame _ _ _ _ F) as (Fp & Fn & Fg & Fx).
    + simplify_eq. simpl. split; constructor.
    + destruct (upsert_names w0 names) as [[w2 evs2] r2] eqn:E2.
      simplify_eq. simpl. rewrite <- Fp. by eapply IH.
    + destruct (CreatePage w0 name) as [w1' [e|id]] eqn:C;
        destruct (CreatePage_frame _ _ _ _ C) as (Cg & Ce & Ci).
      * simplify_eq. simpl. split; constructor.
      * destruct (upsert_names w1' names) as [[w2 evs2] r2] eqn:E2.
        simplify_eq. simpl.
        assert (Hc : w_people w1' = w_people w ++ [(id, name)])
          by by rewrite (Ci id eq_refl), Fp.
        assert (Hnone : find_title (w_people w) name = None) by (symmetry; by apply Fx).
        destruct (IH _ _ _ _ E2) as [Hnf Hnd].
        assert (Hin : name ∉ created_titles evs2).
        { intros Hin. rewrite Forall_forall in Hnf. specialize (Hnf _ Hin).
          rewrite Hc in Hnf. by rewrite find_title_app_none in Hnf. }
        split.
        -- constructor; [done|]. eapply Forall_impl; [exact Hnf|].
           intros t Ht. rewrite Hc in Ht.
           destruct (find_title (w_people w) t) eqn:Ft; [|done].
           by rewrite (find_title_app_some _ _ _ _ Ft) in Ht.
        -- by constructor.
Qed.

(** An aborted loop ends with the failed search or creation, followed by
    the fatal error that wraps the call's error. *)
Lemma upsert_names_abort (names : list string) :
  forall (w w1 : World) (evs : list UEvent),
    upsert_names w names = (w1, evs, None) ->
    exists pre name e,
      evs = pre ++ [USearch NotionPeopleDatabaseID name (inl e);
                    UFatal (ErrWrapped ("failed to check for existing people page for " +:+
                                        name +:+ ": " +:+ e))] \/
      evs = pre ++ [UCreate NotionPeopleDatabaseID name (inl e);
                    UFatal (ErrWrapped ("failed to create people page for " +:+
                                        name +:+ ": " +:+ e))].
Proof.
  induction names as [|name names IH]; intros w w1 evs H; cbn [upsert_names] in H.
  - discriminate.
  - destruct (String.eqb name "") eqn:E; [by eapply IH|].
    destruct (FindPageByTitle w name) as [w0 [e|[id|]]] eqn:F.
    + simplify_eq. exists [], name, e. by left.
    + destruct (upsert_names w0 names) as [[w2 evs2] r2] eqn:E2.
      destruct r2; simplify_eq/=.
      destruct (IH _ _ _ E2) as (pre & n & e & [-> | ->]);
        exists (USearch NotionPeopleDatabaseID name (inr (Some id)) ::
                UPrintln ("Found existing page for " +:+ name +:+ ": " +:+ id) :: pre), n, e;
        [by left|by right].
    + destruct (CreatePage w0 name) as [w1' [e|id]] eqn:C.
      * simplify_eq. exists [USearch NotionPeopleDatabaseID name (inr None)], name, e.
        by right.
      * destruct (upsert_names w1' names) as [[w2 evs2] r2] eqn:E2.
        destruct r2; simplify_eq/=.
        destruct (IH _ _ _ E2) as (pre & n & e & [-> | ->]);
          exists (USearch NotionPeopleDatabaseID name (inr None) ::
                  UCreate NotionPeopleDatabaseID name (inr id) ::
                  UPrintln ("Created new page for " +:+ name +:+ ": " +:+ id) :: pre), n, e;
          [by left|by right].
Qed.

(** The names loop (main.go lines 170-208): it searches the People
    database for the non-empty names, in order, and skips the empty ones:
    all of them when it completes, collecting one id per search; the
    People database gains exactly the titles it creates, at its end; it
    creates a page only for a title the database did not hold, and never
    the same title twice in a run, even when a name repeats; when a search
    or a creation fails, the run stops there with the fatal error wrapping
    the call's error. *)
Theorem upsert_names_effects (w : World) (names : list string)
    (w1 : World) (evs : list UEvent) (r : option (list string)) :
  upsert_names w names = (w1, evs, r) ->
  searched_titles evs `prefix_of` nonempty_names names /\
  map snd (w_people w1) = map snd (w_people w) ++ created_titles evs /\
  Forall (fun t => find_title (w_people w) t = None) (created_titles evs) /\
  NoDup (created_titles evs) /\
  (forall ids, r = Some ids ->
     searched_titles evs = nonempty_names names /\
     length ids = length (nonempty_names names)) /\
  (r = None ->
   exists pre name e,
     evs = pre ++ [USearch NotionPeopleDatabaseID name (inl e);
                   UFatal (ErrWrapped ("failed to check for existing people page for " +:+
                                       name +:+ ": " +:+ e))] \/
     evs = pre ++ [UCreate NotionPeopleDatabaseID name (inl e);
                   UFatal (ErrWrapped ("failed to create people page for " +:+
                                       name +:+ ": " +:+ e))]).
Proof.
  intros H.
  destruct (upsert_names_found _ _ _ _ _ H) as [_ Hall].
  destruct (upsert_names_created _ _ _ _ _ H) as [Hnf Hnd].
  destruct (upsert_names_searched _ _ _ _ _ H) as [Hpre Heq].
  split_and!.
  - done.
  - by eapply upsert_names_people.
  - done.
  - done.
  - intros ids Hids. split; [by apply (Heq ids)|].
    symmetry. eapply Forall2_length. by apply (Hall ids).
  - intros ->. by eapply upsert_names_abort.
Qed.

(** "Alice" is created, "Bob" found, then the search for "Carol" fails. *)
Lemma upsert_names_effects_witness :
  (upsert_names (mkWorld [("p1", "Bob")] 7 ∅ [None; None; None; Some "rate limited"])
     ["Alice"; ""; "Bob"; "Carol"]).2 = None /\
  created_titles (upsert_names (mkWorld [("p1", "Bob")] 7 ∅ [None; None; None; Some "rate limited"])
     ["Alice"; ""; "Bob"; "Carol"]).1.2 = ["Alice"] /\
  searched_titles (upsert_names (mkWorld [("p1", "Bob")] 7 ∅ [None; None; None; Some "rate limited"])
     ["Alice"; ""; "Bob"; "Carol"]).1.2 `prefix_of` ["Alice"; "Bob"; "Carol"].
Proof.
  destruct (upsert_names_effects (mkWorld [("p1", "Bob")] 7 ∅ [None; None; None; Some "rate limited"])
              ["Alice"; ""; "Bob"; "Carol"]
              (upsert_names (mkWorld [("p1", "Bob")] 7 ∅ [None; None; None; Some "rate limited"])
                 ["Alice"; ""; "Bob"; "Carol"]).1.1
              (upsert_names (mkWorld [("p1", "Bob")] 7 ∅ [None; None; None; Some "rate limited"])
                 ["Alice"; ""; "Bob"; "Carol"]).1.2
              None ltac:(vm_compute; reflexivity)) as [Hpre _].
  split; [vm_compute; reflexivity|]. split; [vm_compute; reflexivity|].
  exact Hpre.
Defined.

(** Running the names loop a second time over the same names, on the world
    a completed first run left, creates no People page and changes no page
    or person, whatever the API calls answer; it collects the same ids
    unless a call fails, and does when none fails. *)
Theorem upsert_names_idempotent (w : World) (names : list string)
    (w1 : World) (evs : list UEvent) (ids : list string)
    (errs : list (option string)) (w2 : World) (evs' : list UEvent)
    (r' : option (list string)) :
  upsert_names w names = (w1, evs, Some ids) ->
  upsert_names (mkWorld (w_people w1) (w_next w1) (w_pages w1) errs) names = (w2, evs', r') ->
  created_titles evs' = [] /\ w_people w2 = w_people w1 /\ w_pages w2 = w_pages w1 /\
  (r' = None \/ r' = Some ids) /\
  (Forall (fun o => o = None) errs -> r' = Some ids).
Proof.
  intros H1 H2. destruct (upsert_names_found _ _ _ _ _ H1) as [_ Hall].
  destruct (upsert_names_all_found names (mkWorld (w_people w1) (w_next w1) (w_pages w1) errs)
              ids (Hall ids eq_refl) _ _ _ H2)
    as (Hc & Hp & _ & Hg & Hr & Hok).
  split_and!; done.
Qed.

(** The first run creates "Alice"; the second, whose second call fails,
    creates nothing. *)
Lemma upsert_names_idempotent_witness :
  created_titles
    (upsert_names
       (mkWorld (w_people (upsert_names (mkWorld [("p1", "Bob")] 7 ∅ [])
                             ["Alice"; ""; "Bob"; "Alice"]).1.1)
                (w_next (upsert_names (mkWorld [("p1", "Bob")] 7 ∅ [])
                           ["Alice"; ""; "Bob"; "Alice"]).1.1)
                (w_pages (upsert_names (mkWorld [("p1", "Bob")] 7 ∅ [])
                            ["Alice"; ""; "Bob"; "Alice"]).1.1)
                [None; Some "rate limited"])
       ["Alice"; ""; "Bob"; "Alice"]).1.2 = [].
Proof.
  set (w := mkWorld [("p1", "Bob")] 7 ∅ []).
  set (names := ["Alice"; ""; "Bob"; "Alice"]).
  set (w1 := (upsert_names w names).1.1).
  set (w1' := mkWorld (w_people w1) (w_next w1) (w_pages w1) [None; Some "rate limited"]).
  apply (upsert_names_idempotent w names w1 (upsert_names w names).1.2
           ["person-7"; "p1"; "person-7"] [None; Some "rate limited"]
           (upsert_names w1' names).1.1 (upsert_names w1' names).1.2
           (upsert_names w1' names).2);
    vm_compute; reflexivity.
Defined.
